(** * SwiftChannel: the shared-memory SPSC channel, embedded and verified

    A shallow embedding of the core of SwiftChannel (the framed
    single-producer/single-consumer ring buffer, the handshake, the
    configuration validator and the sender/receiver facades), followed by
    the properties of the specification that were checked against it.

    Conventions.
    - [size_t], [uint64_t], [uint32_t] and [uint16_t] values are integers in
      [Z]; every place where the C++ arithmetic wraps is written out with
      [u64] / [u32] / [u16].
    - Raw memory is a [list byte]; [memcpy] is an in-place update of a list.
    - The shared region is the pair of the [SharedMemoryHeader] (accessed by
      the code as a struct through a pointer) and the ring bytes behind it.
      It is passed explicitly through every operation that touches it.
    - The steady clock, the process id and the platform shared-memory layer
      are inputs of the operations that consult them.
    - Memory orderings of the atomics and the lifetime of the mapping are
      outside the model: each operation is one sequential step. *)

From Stdlib Require Import ZArith Lia Bool.
From Stdlib.Strings Require Import Byte String.
From stdpp Require Import base list.

Local Open Scope Z_scope.

(* ===================================================================== *)
(** ** Fixed-width integers *)

Definition u16 (z : Z) : Z := z mod 2 ^ 16.
Definition u32 (z : Z) : Z := z mod 2 ^ 32.
Definition u64 (z : Z) : Z := z mod 2 ^ 64.

(** Bitwise complement of a [size_t]. *)
Definition not64 (z : Z) : Z := u64 (Z.lnot z).

(* ===================================================================== *)
(** ** Bytes and little-endian integers *)

Definition Z_of_byte (b : byte) : Z := Z.of_N (Byte.to_N b).

Definition byte_of_Z (z : Z) : byte :=
  match Byte.of_N (Z.to_N (z mod 256)) with
  | Some b => b
  | None => x00
  end.

(** The [n] bytes of [z], least significant first (the in-memory image of an
    integer field on the little-endian hosts the library targets). *)
Fixpoint le_bytes (n : nat) (z : Z) : list byte :=
  match n with
  | O => []
  | S n' => byte_of_Z z :: le_bytes n' (z / 256)
  end.

Fixpoint le_value (bs : list byte) : Z :=
  match bs with
  | [] => 0
  | b :: bs' => Z_of_byte b + 256 * le_value bs'
  end.

(** [memcpy(dst + pos, src, n)]: the first [n] bytes of [src] replace the
    bytes of [dst] from index [pos] on. *)
Definition memcpy (dst : list byte) (pos : Z) (src : list byte) (n : Z)
  : list byte :=
  list_inserts (Z.to_nat pos) (take (Z.to_nat n) src) dst.

(* ===================================================================== *)
(** ** common/alignment.hpp *)

Definition CACHE_LINE_SIZE : Z := 64.

Definition align_up (value alignment : Z) : Z :=
  Z.land (u64 (value + alignment - 1)) (not64 (u64 (alignment - 1))).

Definition is_power_of_two (value : Z) : bool :=
  negb (value =? 0) && (Z.land value (u64 (value - 1)) =? 0).

Definition align_down (value alignment : Z) : Z :=
  Z.land value (not64 (u64 (alignment - 1))).

Definition is_aligned (value alignment : Z) : bool :=
  Z.land value (u64 (alignment - 1)) =? 0.

(* ===================================================================== *)
(** ** common/error.hpp *)

Inductive ErrorCode : Set :=
| Success
| ChannelNotFound | ChannelAlreadyExists | ChannelFull | ChannelClosed
| InvalidChannelName
| MessageTooLarge | InvalidMessage | MessageCorrupted | ChecksumMismatch
| OutOfMemory | SharedMemoryError | MappingFailed | InvalidMemoryLayout
| LockTimeout | ConcurrencyViolation
| SystemError | PermissionDenied | ResourceBusy | InvalidOperation
| VersionMismatch | IncompatibleProtocol.

(** [Result<T>]: either a value or an error code.  The code modelled here
    builds a result from an error code only with codes other than
    [Success]. *)
Inductive Result (T : Type) : Type :=
| Ok (v : T)
| Err (e : ErrorCode).
Arguments Ok {T} v.
Arguments Err {T} e.

Definition error {T} (r : Result T) : ErrorCode :=
  match r with
  | Ok _ => Success
  | Err e => e
  end.

Definition is_ok {T} (r : Result T) : bool :=
  match error r with
  | Success => true
  | _ => false
  end.

Definition is_error {T} (r : Result T) : bool := negb (is_ok r).

Definition error_to_string (code : ErrorCode) : string :=
  match code with
  | Success => "Success"
  | ChannelNotFound => "Channel not found"
  | ChannelAlreadyExists => "Channel already exists"
  | ChannelFull => "Channel buffer is full"
  | ChannelClosed => "Channel is closed"
  | InvalidChannelName => "Invalid channel name"
  | MessageTooLarge => "Message too large"
  | InvalidMessage => "Invalid message"
  | MessageCorrupted => "Message corrupted"
  | ChecksumMismatch => "Checksum mismatch"
  | OutOfMemory => "Out of memory"
  | SharedMemoryError => "Shared memory error"
  | MappingFailed => "Memory mapping failed"
  | InvalidMemoryLayout => "Invalid memory layout"
  | LockTimeout => "Lock timeout"
  | ConcurrencyViolation => "Concurrency violation"
  | SystemError => "System error"
  | PermissionDenied => "Permission denied"
  | ResourceBusy => "Resource busy"
  | InvalidOperation => "Invalid operation"
  | VersionMismatch => "Version mismatch"
  | IncompatibleProtocol => "Incompatible protocol"
  end%string.

(* ===================================================================== *)
(** ** common/version.hpp *)

Module Version.

Record t : Set := mk { major : Z; minor : Z; patch : Z }.

Definition is_compatible_with (self other : t) : bool :=
  major self =? major other.

Definition as_uint32 (self : t) : Z :=
  Z.lor (Z.lor (u32 (Z.shiftl (u32 (major self)) 16))
               (u32 (Z.shiftl (u32 (minor self)) 8)))
        (u32 (patch self)).

End Version.

Definition PROTOCOL_VERSION : Version.t := Version.mk 1 0 0.

(* ===================================================================== *)
(** ** common/types.hpp *)

Module MessageHeader.

Record t : Set := mk {
  magic : Z;      (* uint32_t *)
  size : Z;       (* uint32_t *)
  sequence : Z;   (* uint64_t *)
  timestamp : Z;  (* uint64_t *)
  checksum : Z;   (* uint32_t *)
  reserved : Z    (* uint32_t *)
}.

Definition MAGIC : Z := 0x53574946.

Definition sizeof : Z := 32.

(** The 32 bytes of the struct as they lie in memory. *)
Definition to_bytes (h : t) : list byte :=
  le_bytes 4 (magic h) ++ le_bytes 4 (size h) ++
  le_bytes 8 (sequence h) ++ le_bytes 8 (timestamp h) ++
  le_bytes 4 (checksum h) ++ le_bytes 4 (reserved h).

(** The struct read back from 32 bytes of memory. *)
Definition of_bytes (bs : list byte) : t :=
  {| magic := le_value (take 4 bs);
     size := le_value (take 4 (drop 4 bs));
     sequence := le_value (take 8 (drop 8 bs));
     timestamp := le_value (take 8 (drop 16 bs));
     checksum := le_value (take 4 (drop 24 bs));
     reserved := le_value (take 4 (drop 28 bs)) |}.

(** [MessageHeader msg_header{}]: value-initialised, all bytes zero. *)
Definition zeroed : list byte := replicate 32 x00.

End MessageHeader.

Module SharedMemoryHeader.

Record t : Set := mk {
  magic : Z;             (* uint32_t *)
  version : Z;           (* uint32_t *)
  ring_buffer_size : Z;  (* uint64_t *)
  write_index : Z;       (* std::atomic<uint64_t> *)
  read_index : Z;        (* std::atomic<uint64_t> *)
  sender_pid : Z;        (* uint32_t *)
  receiver_pid : Z;      (* uint32_t *)
  flags : Z;             (* uint64_t *)
  reserved : list Z      (* uint64_t[10] *)
}.

Definition MAGIC : Z := 0x53574946.

Definition sizeof : Z := 128.

Definition store_write_index (v : Z) (h : t) : t :=
  {| magic := magic h; version := version h;
     ring_buffer_size := ring_buffer_size h;
     write_index := v; read_index := read_index h;
     sender_pid := sender_pid h; receiver_pid := receiver_pid h;
     flags := flags h; reserved := reserved h |}.

Definition store_read_index (v : Z) (h : t) : t :=
  {| magic := magic h; version := version h;
     ring_buffer_size := ring_buffer_size h;
     write_index := write_index h; read_index := v;
     sender_pid := sender_pid h; receiver_pid := receiver_pid h;
     flags := flags h; reserved := reserved h |}.

Definition set_receiver_pid (v : Z) (h : t) : t :=
  {| magic := magic h; version := version h;
     ring_buffer_size := ring_buffer_size h;
     write_index := write_index h; read_index := read_index h;
     sender_pid := sender_pid h; receiver_pid := v;
     flags := flags h; reserved := reserved h |}.

(** [memset(header, 0, sizeof(SharedMemoryHeader))]. *)
Definition zeroed : t :=
  {| magic := 0; version := 0; ring_buffer_size := 0;
     write_index := 0; read_index := 0;
     sender_pid := 0; receiver_pid := 0;
     flags := 0; reserved := replicate 10 0 |}.

End SharedMemoryHeader.

(** The mapped shared region: the header at offset 0 and the ring bytes
    starting at [align_up(sizeof(SharedMemoryHeader), CACHE_LINE_SIZE)]. *)
Record Region : Set := mkRegion {
  header : SharedMemoryHeader.t;
  ring : list byte
}.

(* ===================================================================== *)
(** ** sender/config.hpp *)

Module ChannelConfig.

Record t : Set := mk {
  ring_buffer_size : Z;   (* size_t *)
  max_message_size : Z;   (* size_t *)
  flags : Z;              (* uint64_t *)
  timeout_us : Z;         (* uint64_t *)
  enable_checksum : bool;
  overwrite_on_full : bool
}.

(** [ChannelConfig{}]. *)
Definition default : t :=
  {| ring_buffer_size := 1024 * 1024;
     max_message_size := 64 * 1024;
     flags := 0;
     timeout_us := 0;
     enable_checksum := false;
     overwrite_on_full := false |}.

Definition is_valid (c : t) : bool :=
  if negb (is_power_of_two (ring_buffer_size c)) then false
  else if max_message_size c >=? ring_buffer_size c / 2 then false
  else if (ring_buffer_size c <? 4096) || (max_message_size c <? 64)
       then false
  else true.

Definition with_flags (f : Z) (c : t) : t :=
  {| ring_buffer_size := ring_buffer_size c;
     max_message_size := max_message_size c;
     flags := f;
     timeout_us := timeout_us c;
     enable_checksum := enable_checksum c;
     overwrite_on_full := overwrite_on_full c |}.

End ChannelConfig.

(* ===================================================================== *)
(** ** sender/ring_buffer.hpp *)

Module RingBuffer.

(** The object holds the ring's size and mask; the bytes [buffer_] points
    to live in the shared region and are passed to each operation. *)
Record t : Set := mk { size_ : Z; mask_ : Z }.

(** [RingBuffer(memory, size)]. *)
Definition make (size : Z) : t :=
  {| size_ := size; mask_ := u64 (size - 1) |}.

Definition write_bytes (rb : t) (buffer_ src : list byte) (size offset : Z)
  : list byte :=
  let pos := Z.land offset (mask_ rb) in
  let end_pos := u64 (pos + size) in
  if end_pos <=? size_ rb then
    memcpy buffer_ pos src size
  else
    let first_part := u64 (size_ rb - pos) in
    let buffer1 := memcpy buffer_ pos src first_part in
    memcpy buffer1 0 (drop (Z.to_nat first_part) src) (u64 (size - first_part)).

Definition read_bytes (rb : t) (buffer_ dst : list byte) (size offset : Z)
  : list byte :=
  let pos := Z.land offset (mask_ rb) in
  let end_pos := u64 (pos + size) in
  if end_pos <=? size_ rb then
    memcpy dst 0 (drop (Z.to_nat pos) buffer_) size
  else
    let first_part := u64 (size_ rb - pos) in
    let dst1 := memcpy dst 0 (drop (Z.to_nat pos) buffer_) first_part in
    memcpy dst1 first_part buffer_ (u64 (size - first_part)).

(** [sizeof(MessageHeader) + align_up(data_size, 8)], in [size_t]. *)
Definition total_size (data_size : Z) : Z :=
  u64 (MessageHeader.sizeof + align_up data_size 8).

Definition available_write_space (rb : t) (h : SharedMemoryHeader.t) : Z :=
  let current_write := SharedMemoryHeader.write_index h in
  let current_read := SharedMemoryHeader.read_index h in
  u64 (size_ rb - u64 (current_write - current_read)).


(** [try_write(data, data_size, header)]; [now] is the reading of the
    steady clock taken by [get_timestamp_ns()]. *)
Definition try_write (rb : t) (data : list byte) (data_size : Z) (now : Z)
    (shm : Region) : bool * Region :=
  let total_size := u64 (MessageHeader.sizeof + align_up data_size 8) in
  let current_write := SharedMemoryHeader.write_index (header shm) in
  let current_read := SharedMemoryHeader.read_index (header shm) in
  let available := u64 (size_ rb - u64 (current_write - current_read)) in
  if available <? total_size then (false, shm)
  else
    let msg_header :=
      {| MessageHeader.magic := MessageHeader.MAGIC;
         MessageHeader.size := u32 data_size;
         MessageHeader.sequence := current_write;
         MessageHeader.timestamp := now;
         MessageHeader.checksum := 0;
         MessageHeader.reserved := 0 |} in
    let ring1 :=
      write_bytes rb (ring shm) (MessageHeader.to_bytes msg_header)
                  MessageHeader.sizeof current_write in
    let ring2 :=
      write_bytes rb ring1 data data_size
                  (u64 (current_write + MessageHeader.sizeof)) in
    (true,
     {| header :=
          SharedMemoryHeader.store_write_index
            (u64 (current_write + total_size)) (header shm);
        ring := ring2 |}).

(** What [try_read] leaves behind: its return value, the caller's buffer,
    the in-out [data_size] and the shared region. *)
Record read_result : Set := mk_read {
  ok : bool;
  data : list byte;
  data_size : Z;
  shm : Region
}.

(** The [MessageHeader] found at [read_index]. *)
Definition peek_header (rb : t) (shm : Region) : MessageHeader.t :=
  MessageHeader.of_bytes
    (read_bytes rb (ring shm) MessageHeader.zeroed MessageHeader.sizeof
                (SharedMemoryHeader.read_index (header shm))).

Definition try_read (rb : t) (data : list byte) (data_size : Z)
    (shm : Region) : read_result :=
  let current_read := SharedMemoryHeader.read_index (header shm) in
  let current_write := SharedMemoryHeader.write_index (header shm) in
  if current_read >=? current_write then
    mk_read false data data_size shm
  else
    let msg_header :=
      MessageHeader.of_bytes
        (read_bytes rb (ring shm) MessageHeader.zeroed MessageHeader.sizeof
                    current_read) in
    if negb (MessageHeader.magic msg_header =? MessageHeader.MAGIC) then
      mk_read false data data_size shm
    else if MessageHeader.size msg_header >? data_size then
      mk_read false data (MessageHeader.size msg_header) shm
    else
      let data1 :=
        read_bytes rb (ring shm) data (MessageHeader.size msg_header)
                   (u64 (current_read + MessageHeader.sizeof)) in
      let total_size :=
        u64 (MessageHeader.sizeof
             + align_up (MessageHeader.size msg_header) 8) in
      mk_read true data1 (MessageHeader.size msg_header)
        {| header :=
             SharedMemoryHeader.store_read_index
               (u64 (current_read + total_size)) (header shm);
           ring := ring shm |}.

End RingBuffer.

(* ===================================================================== *)
(** ** ipc/handshake.cpp

    Every entry point is called with a non-null header, so the null checks
    of the source are not represented. *)

Module Handshake.

(** [initialize_header], for a build whose [PROTOCOL_VERSION] is [proto];
    [pid] is the identifier [getpid()] / [GetCurrentProcessId()] returns. *)
Definition initialize_header_at (proto : Version.t)
    (h : SharedMemoryHeader.t) (ring_buffer_size flags pid : Z)
  : SharedMemoryHeader.t :=
  let h0 := SharedMemoryHeader.zeroed in
  {| SharedMemoryHeader.magic := SharedMemoryHeader.MAGIC;
     SharedMemoryHeader.version := Version.as_uint32 proto;
     SharedMemoryHeader.ring_buffer_size := ring_buffer_size;
     SharedMemoryHeader.write_index := 0;
     SharedMemoryHeader.read_index := 0;
     SharedMemoryHeader.sender_pid := u32 pid;
     SharedMemoryHeader.receiver_pid := SharedMemoryHeader.receiver_pid h0;
     SharedMemoryHeader.flags := flags;
     SharedMemoryHeader.reserved := SharedMemoryHeader.reserved h0 |}.

Definition initialize_header (h : SharedMemoryHeader.t)
    (ring_buffer_size flags pid : Z) : SharedMemoryHeader.t :=
  initialize_header_at PROTOCOL_VERSION h ring_buffer_size flags pid.

(** The version triple [validate_header] rebuilds from the packed field. *)
Definition header_version (h : SharedMemoryHeader.t) : Version.t :=
  {| Version.major :=
       u16 (Z.land (Z.shiftr (SharedMemoryHeader.version h) 16) 0xFFFF);
     Version.minor :=
       u16 (Z.land (Z.shiftr (SharedMemoryHeader.version h) 8) 0xFF);
     Version.patch :=
       u16 (Z.land (SharedMemoryHeader.version h) 0xFF) |}.

(** [validate_header], for a build whose [PROTOCOL_VERSION] is [proto]. *)
Definition validate_header_at (proto : Version.t)
    (h : SharedMemoryHeader.t) : Result unit :=
  if negb (SharedMemoryHeader.magic h =? SharedMemoryHeader.MAGIC) then
    Err InvalidMemoryLayout
  else if negb (Version.is_compatible_with proto (header_version h)) then
    Err VersionMismatch
  else if (SharedMemoryHeader.ring_buffer_size h =? 0)
          || negb (Z.land (SharedMemoryHeader.ring_buffer_size h)
                          (u64 (SharedMemoryHeader.ring_buffer_size h - 1))
                   =? 0)
       then Err InvalidMemoryLayout
  else Ok tt.

Definition validate_header (h : SharedMemoryHeader.t) : Result unit :=
  validate_header_at PROTOCOL_VERSION h.

Definition sender_handshake (h : SharedMemoryHeader.t) : Result unit :=
  if SharedMemoryHeader.magic h =? SharedMemoryHeader.MAGIC then
    validate_header h
  else Ok tt.

Definition receiver_handshake (h : SharedMemoryHeader.t) (pid : Z)
  : Result unit * SharedMemoryHeader.t :=
  if negb (SharedMemoryHeader.magic h =? SharedMemoryHeader.MAGIC) then
    (Err ChannelNotFound, h)
  else
    let result := validate_header h in
    if is_error result then (result, h)
    else (Ok tt, SharedMemoryHeader.set_receiver_pid (u32 pid) h).

End Handshake.

(* ===================================================================== *)
(** ** sender/channel.hpp, sender/channel.cpp *)

(** The platform layer behind [SharedMemory::create_or_open(name, size,
    create)]: it either fails with an error code or maps a region, whose
    current content it hands over. *)
Definition Platform : Type := string -> Z -> bool -> Result Region.

Module Channel.

(** [shared_memory_] records whether the pointer is non-null.  The ring
    buffer object is only reached behind [is_open], so the field keeps its
    value when [close] resets the pointer. *)
Record t : Set := mk {
  name_ : string;
  config_ : ChannelConfig.t;
  shared_memory_ : bool;
  total_size_ : Z;
  ring_buffer_ : RingBuffer.t
}.

(** The private constructor, called with a mapped region. *)
Definition make (name : string) (config : ChannelConfig.t) (total_size : Z)
  : t :=
  {| name_ := name;
     config_ := config;
     shared_memory_ := true;
     total_size_ := total_size;
     ring_buffer_ :=
       RingBuffer.make (ChannelConfig.ring_buffer_size config) |}.

Definition is_open (c : t) : bool := shared_memory_ c.

Definition ring_buffer (c : t) : RingBuffer.t := ring_buffer_ c.

Definition close (c : t) : t :=
  {| name_ := name_ c;
     config_ := config_ c;
     shared_memory_ := false;
     total_size_ := total_size_ c;
     ring_buffer_ := ring_buffer_ c |}.

(** [Channel::open(name, config)].  The second component is the content of
    the region the platform mapped, after the call; [None] when nothing
    was mapped.

    What is modelled is the result and the bytes the call leaves in the
    shared region.  The lifetime of the mapping is not: in the source the
    local [SharedMemory] and the moved-from [Channel] temporaries release
    the mapping when the call returns, while the channel handed back still
    answers [is_open()] with true.  Properties of sending and receiving are
    therefore stated for a channel bound to a mapped region that is given,
    not for the one this function returns. *)
Definition open (name : string) (config : ChannelConfig.t)
    (create_or_open : Platform) (pid : Z) : Result t * option Region :=
  if negb (ChannelConfig.is_valid config) then (Err InvalidOperation, None)
  else
    let header_size := align_up SharedMemoryHeader.sizeof CACHE_LINE_SIZE in
    let total_size :=
      u64 (header_size + ChannelConfig.ring_buffer_size config) in
    match create_or_open name total_size true with
    | Err e => (Err e, None)
    | Ok memory =>
        let needs_init :=
          negb (SharedMemoryHeader.magic (header memory)
                =? SharedMemoryHeader.MAGIC) in
        if needs_init then
          let memory1 :=
            {| header :=
                 Handshake.initialize_header (header memory)
                   (ChannelConfig.ring_buffer_size config)
                   (ChannelConfig.flags config) pid;
               ring := ring memory |} in
          match Handshake.sender_handshake (header memory1) with
          | Err e => (Err e, Some memory1)
          | Ok _ => (Ok (make name config total_size), Some memory1)
          end
        else
          match Handshake.validate_header (header memory) with
          | Err e => (Err e, Some memory)
          | Ok _ =>
              match Handshake.sender_handshake (header memory) with
              | Err e => (Err e, Some memory)
              | Ok _ => (Ok (make name config total_size), Some memory)
              end
          end
    end.

End Channel.

(* ===================================================================== *)
(** ** sender/sender.hpp *)

Module Sender.

Record t : Set := mk {
  channel_name_ : string;
  config_ : ChannelConfig.t;
  channel_ : option Channel.t   (* std::unique_ptr<Channel> *)
}.

(** [Sender(channel_name, config)], with the region left behind by
    [Channel::open]. *)
Definition make (channel_name : string) (config : ChannelConfig.t)
    (create_or_open : Platform) (pid : Z) : t * option Region :=
  let (result, memory) :=
    Channel.open channel_name config create_or_open pid in
  ({| channel_name_ := channel_name;
      config_ := config;
      channel_ :=
        match result with
        | Ok c => Some c
        | Err _ => None
        end |},
   memory).

Definition is_ready (s : t) : bool :=
  match channel_ s with
  | Some c => Channel.is_open c
  | None => false
  end.

(** [send_bytes(data, size)] on the region the channel is bound to. *)
Definition send_bytes (s : t) (data : list byte) (size : Z) (now : Z)
    (shm : Region) : Result unit * Region :=
  if negb (is_ready s) then (Err ChannelClosed, shm)
  else if size >? ChannelConfig.max_message_size (config_ s) then
    (Err MessageTooLarge, shm)
  else
    match channel_ s with
    | None => (Err ChannelClosed, shm)  (* not reached: [is_ready] holds *)
    | Some c =>
        let rb := Channel.ring_buffer c in
        let (written, shm1) := RingBuffer.try_write rb data size now shm in
        if written then (Ok tt, shm1)
        else if ChannelConfig.overwrite_on_full (config_ s) then
          (Err ChannelFull, shm1)
        else (Err ChannelFull, shm1)
    end.

Definition available_space (s : t) (shm : Region) : Z :=
  match channel_ s with
  | None => 0
  | Some c =>
      if negb (Channel.is_open c) then 0
      else RingBuffer.available_write_space (Channel.ring_buffer c)
             (header shm)
  end.

(** A run of sends, each with its payload and clock reading; the results
    are listed in order. *)
Fixpoint send_all (s : t) (msgs : list (list byte * Z)) (shm : Region)
  : list (Result unit) * Region :=
  match msgs with
  | [] => ([], shm)
  | (payload, now) :: rest =>
      let (r, shm1) :=
        send_bytes s payload (Z.of_nat (length payload)) now shm in
      let (rs, shm2) := send_all s rest shm1 in
      (r :: rs, shm2)
  end.

End Sender.

(* ===================================================================== *)
(** ** receiver/receiver.hpp, receiver/receiver.cpp *)

Module Receiver.

Record Stats : Set := mk_stats {
  messages_received : Z;
  bytes_received : Z;
  errors : Z;
  buffer_full_count : Z
}.

Record t : Set := mk {
  channel_name_ : string;
  config_ : ChannelConfig.t;
  channel_ : option Channel.t;
  running_ : bool;
  stats_ : Stats
}.

(** [Receiver::Impl::Impl(channel_name, config)]. *)
Definition make (channel_name : string) (config : ChannelConfig.t)
    (create_or_open : Platform) (pid : Z) : t * option Region :=
  let (result, memory) :=
    Channel.open channel_name config create_or_open pid in
  ({| channel_name_ := channel_name;
      config_ := config;
      channel_ :=
        match result with
        | Ok c => Some c
        | Err _ => None
        end;
      running_ := false;
      stats_ := mk_stats 0 0 0 0 |},
   memory).

(** What one [poll_one] leaves behind: the result, the message handed to
    the handler (if it was called), the receiver and the region. *)
Record poll_result : Set := mk_poll {
  result : Result bool;
  handled : option (list byte);
  self : t;
  shm : Region
}.

Definition poll_one (r : t) (shm : Region) : poll_result :=
  match channel_ r with
  | None => mk_poll (Err ChannelNotFound) None r shm
  | Some c =>
      if negb (Channel.is_open c) then
        mk_poll (Err ChannelNotFound) None r shm
      else
        let buffer :=
          replicate (Z.to_nat (ChannelConfig.max_message_size (config_ r)))
                    x00 in
        let size := Z.of_nat (length buffer) in
        let rd := RingBuffer.try_read (Channel.ring_buffer c) buffer size
                    shm in
        if RingBuffer.ok rd then
          let size1 := RingBuffer.data_size rd in
          mk_poll (Ok true)
            (Some (take (Z.to_nat size1) (RingBuffer.data rd)))
            {| channel_name_ := channel_name_ r;
               config_ := config_ r;
               channel_ := channel_ r;
               running_ := running_ r;
               stats_ :=
                 {| messages_received :=
                      u64 (messages_received (stats_ r) + 1);
                    bytes_received :=
                      u64 (bytes_received (stats_ r) + size1);
                    errors := errors (stats_ r);
                    buffer_full_count := buffer_full_count (stats_ r) |} |}
            (RingBuffer.shm rd)
        else
          mk_poll (Ok false) None r (RingBuffer.shm rd)
  end.

(** [n] polls in a row; the results are listed in order. *)
Fixpoint poll_many (n : nat) (r : t) (shm : Region)
  : list (Result bool) * t * Region :=
  match n with
  | O => ([], r, shm)
  | S n' =>
      let p := poll_one r shm in
      let '(rs, r', shm') := poll_many n' (self p) (Receiver.shm p) in
      (result p :: rs, r', shm')
  end.

(** [n] polls in a row; the messages handed to the handler are listed in
    order. *)
Fixpoint poll_collect (n : nat) (r : t) (shm : Region)
  : list (list byte) * t * Region :=
  match n with
  | O => ([], r, shm)
  | S n' =>
      let p := poll_one r shm in
      let '(ms, r', shm') := poll_collect n' (self p) (Receiver.shm p) in
      (match handled p with
       | Some m => m :: ms
       | None => ms
       end, r', shm')
  end.

End Receiver.

(* ===================================================================== *)
(** ** diagnostics/stats.hpp, diagnostics/stats.cpp *)

Module GlobalStats.

(** [ChannelStats]: eight 64-bit counters, all zero at first. *)
Record ChannelStats : Set := mk_stats {
  messages_sent : Z;
  messages_received : Z;
  bytes_sent : Z;
  bytes_received : Z;
  send_errors : Z;
  receive_errors : Z;
  buffer_full_events : Z;
  checksum_errors : Z
}.

Definition initial : ChannelStats := mk_stats 0 0 0 0 0 0 0 0.

Definition record_send (bytes : Z) (st : ChannelStats) : ChannelStats :=
  {| messages_sent := u64 (messages_sent st + 1);
     messages_received := messages_received st;
     bytes_sent := u64 (bytes_sent st + bytes);
     bytes_received := bytes_received st;
     send_errors := send_errors st;
     receive_errors := receive_errors st;
     buffer_full_events := buffer_full_events st;
     checksum_errors := checksum_errors st |}.

Definition record_receive (bytes : Z) (st : ChannelStats) : ChannelStats :=
  {| messages_sent := messages_sent st;
     messages_received := u64 (messages_received st + 1);
     bytes_sent := bytes_sent st;
     bytes_received := u64 (bytes_received st + bytes);
     send_errors := send_errors st;
     receive_errors := receive_errors st;
     buffer_full_events := buffer_full_events st;
     checksum_errors := checksum_errors st |}.

Definition record_error (is_send : bool) (st : ChannelStats) : ChannelStats :=
  if is_send then
    {| messages_sent := messages_sent st;
       messages_received := messages_received st;
       bytes_sent := bytes_sent st;
       bytes_received := bytes_received st;
       send_errors := u64 (send_errors st + 1);
       receive_errors := receive_errors st;
       buffer_full_events := buffer_full_events st;
       checksum_errors := checksum_errors st |}
  else
    {| messages_sent := messages_sent st;
       messages_received := messages_received st;
       bytes_sent := bytes_sent st;
       bytes_received := bytes_received st;
       send_errors := send_errors st;
       receive_errors := u64 (receive_errors st + 1);
       buffer_full_events := buffer_full_events st;
       checksum_errors := checksum_errors st |}.

Definition total_messages_sent (st : ChannelStats) : Z := messages_sent st.
Definition total_messages_received (st : ChannelStats) : Z :=
  messages_received st.
Definition total_bytes_sent (st : ChannelStats) : Z := bytes_sent st.
Definition total_bytes_received (st : ChannelStats) : Z := bytes_received st.

(** The calls a program makes on the counters, and a run of them. *)
Inductive call : Set :=
| Send (bytes : Z)
| Receive (bytes : Z)
| Error (is_send : bool).

Definition record (c : call) (st : ChannelStats) : ChannelStats :=
  match c with
  | Send bytes => record_send bytes st
  | Receive bytes => record_receive bytes st
  | Error is_send => record_error is_send st
  end.

Definition record_all (cs : list call) (st : ChannelStats) : ChannelStats :=
  fold_left (fun acc c => record c acc) cs st.

(** The four totals hold 64-bit values. *)
Definition in_range (st : ChannelStats) : Prop :=
  u64 (messages_sent st) = messages_sent st /\
  u64 (messages_received st) = messages_received st /\
  u64 (bytes_sent st) = bytes_sent st /\
  u64 (bytes_received st) = bytes_received st.

(** How often each kind of call occurs in a run, and the bytes it reports. *)
Definition sends (cs : list call) : Z :=
  foldr (fun c acc => match c with Send _ => 1 + acc | _ => acc end) 0 cs.

Definition receives (cs : list call) : Z :=
  foldr (fun c acc => match c with Receive _ => 1 + acc | _ => acc end) 0 cs.

Definition sent_bytes (cs : list call) : Z :=
  foldr (fun c acc => match c with Send b => b + acc | _ => acc end) 0 cs.

Definition received_bytes (cs : list call) : Z :=
  foldr (fun c acc => match c with Receive b => b + acc | _ => acc end) 0 cs.

End GlobalStats.

(* ===================================================================== *)
(** * Concrete scenarios

    The configurations, regions and peers the examples below run on. *)

(** A 4096-byte ring with messages of up to 1024 bytes. *)
Definition small_config : ChannelConfig.t :=
  ChannelConfig.mk 4096 1024 0 0 false false.

(** The largest [max_message_size] the validator accepts for 4096 bytes. *)
Definition c5_config : ChannelConfig.t :=
  ChannelConfig.mk 4096 2047 0 0 false false.

(** A freshly mapped, zero-filled region with a 4096-byte ring. *)
Definition zero_region : Region :=
  {| header := SharedMemoryHeader.zeroed; ring := replicate 4096 x00 |}.

(** A platform layer whose mapping always succeeds on [zero_region]. *)
Definition zero_platform : Platform := fun _ _ _ => Ok zero_region.

(** [small_config] with reserved flag bit 4 set. *)
Definition c9_config : ChannelConfig.t :=
  ChannelConfig.with_flags 16 small_config.

(** A sender and a receiver bound to an open channel over [small_config]. *)
Definition small_channel : Channel.t :=
  Channel.make "demo" small_config 4224.

Definition small_sender : Sender.t :=
  Sender.mk "demo" small_config (Some small_channel).

Definition small_receiver : Receiver.t :=
  Receiver.mk "demo" small_config (Some small_channel) false
    (Receiver.mk_stats 0 0 0 0).

(** A sender whose channel could not be opened. *)
Definition failed_sender : Sender.t :=
  Sender.mk "demo" small_config None.

(** The header [Channel::open] leaves in a fresh region for [small_config],
    with the two indices set to [w] and [r]. *)
Definition header_at (w r : Z) : SharedMemoryHeader.t :=
  SharedMemoryHeader.store_read_index r
    (SharedMemoryHeader.store_write_index w
       (Handshake.initialize_header SharedMemoryHeader.zeroed 4096 0 1)).

(** The ring buffer of [small_channel]. *)
Definition small_ring : RingBuffer.t := RingBuffer.make 4096.

(** An initialised region holding one frame with payload ["ABC"]. *)
Definition abc_region : Region :=
  snd (RingBuffer.try_write small_ring [x41; x42; x43] 3 0
         {| header := header_at 0 0; ring := replicate 4096 x00 |}).

(** An initialised region that claims 40 unread bytes although the ring
    holds only zeroes: the frame at [read_index] has magic 0. *)
Definition corrupt_region : Region :=
  {| header := header_at 40 0; ring := replicate 4096 x00 |}.

(** An initialised region with 4032 of its 4096 bytes occupied. *)
Definition full_region : Region :=
  {| header := header_at 4032 0; ring := replicate 4096 x00 |}.

(** An empty, initialised region whose indices stand eight bytes below
    [2 ^ 64]. *)
Definition wrap_region : Region :=
  {| header := header_at (2 ^ 64 - 8) (2 ^ 64 - 8);
     ring := replicate 4096 x00 |}.

(** An empty, initialised region whose next frame starts six bytes before
    the physical end of the ring. *)
Definition straddle_region : Region :=
  {| header := header_at 4090 4090; ring := replicate 4096 x00 |}.

(** The round trip of payload [P] through ring [rb] on region [shm]: when
    [try_write] of [P] succeeds, the [try_read] that follows, into buffer
    [buf], succeeds as well, reports [P]'s length and leaves the bytes of
    [P] at the front of the buffer. *)
Definition round_trips (rb : RingBuffer.t) (P : list byte) (now : Z)
    (shm : Region) (buf : list byte) : Prop :=
  forall shm',
    RingBuffer.try_write rb P (Z.of_nat (length P)) now shm = (true, shm') ->
    let rd := RingBuffer.try_read rb buf (Z.of_nat (length buf)) shm' in
    RingBuffer.ok rd = true /\
    RingBuffer.data_size rd = Z.of_nat (length P) /\
    take (length P) (RingBuffer.data rd) = P.

(* ===================================================================== *)
(** * The queue a region holds

    The abstraction the ring buffer implements: the frames lying between
    [read_index] and [write_index], as the list of their payloads, oldest
    first. *)

(** The [MessageHeader] decoded from the ring's bytes at absolute index
    [r]. *)
Definition frame_header (rb : RingBuffer.t) (bytes : list byte) (r : Z)
  : MessageHeader.t :=
  MessageHeader.of_bytes
    (RingBuffer.read_bytes rb bytes MessageHeader.zeroed MessageHeader.sizeof
       r).

(** From absolute index [r] up to [w] the ring's bytes spell out one frame
    per payload of [ps]: a header with the sentinel and the payload's
    length, the payload bytes behind it, and the next frame at the aligned
    distance. *)
Fixpoint frames_at (rb : RingBuffer.t) (bytes : list byte) (r : Z)
    (ps : list (list byte)) (w : Z) : Prop :=
  match ps with
  | [] => r = w
  | p :: ps' =>
      Z.of_nat (length p) < 2 ^ 32 /\
      MessageHeader.magic (frame_header rb bytes r) = MessageHeader.MAGIC /\
      MessageHeader.size (frame_header rb bytes r) = Z.of_nat (length p) /\
      (forall j : nat,
         (j < length p)%nat ->
         bytes !! Z.to_nat ((r + 32 + Z.of_nat j) mod RingBuffer.size_ rb)
           = p !! j) /\
      frames_at rb bytes (r + RingBuffer.total_size (Z.of_nat (length p)))
        ps' w
  end.

(** Region [shm] holds the queue [ps]: the indices are in range, at most
    [size_] bytes are occupied, the ring has [size_] bytes and the frames
    of [ps] lie between the indices. *)
Definition queue_holds (rb : RingBuffer.t) (shm : Region)
    (ps : list (list byte)) : Prop :=
  0 <= SharedMemoryHeader.read_index (header shm) /\
  SharedMemoryHeader.write_index (header shm) < 2 ^ 64 /\
  SharedMemoryHeader.write_index (header shm)
    - SharedMemoryHeader.read_index (header shm) <= RingBuffer.size_ rb /\
  Z.of_nat (length (ring shm)) = RingBuffer.size_ rb /\
  frames_at rb (ring shm) (SharedMemoryHeader.read_index (header shm)) ps
    (SharedMemoryHeader.write_index (header shm)).

(** The bytes the frames of [ps] take up in the ring. *)
Definition frames_size (ps : list (list byte)) : Z :=
  foldr (fun p acc => RingBuffer.total_size (Z.of_nat (length p)) + acc) 0 ps.

(* ===================================================================== *)
(** * Properties *)

(** ** Arithmetic of the fixed-width operations *)

Lemma u64_small z : 0 <= z < 2 ^ 64 -> u64 z = z.
Proof. intros H. unfold u64. now apply Z.mod_small. Qed.

Lemma u32_small z : 0 <= z < 2 ^ 32 -> u32 z = z.
Proof. intros H. unfold u32. now apply Z.mod_small. Qed.

Lemma u64_range z : 0 <= u64 z < 2 ^ 64.
Proof. unfold u64. apply Z.mod_pos_bound. lia. Qed.

Lemma testbit_above a n :
  0 <= a < 2 ^ n -> forall i, n <= i -> Z.testbit a i = false.
Proof.
  intros [Ha Hlt] i Hi.
  destruct (Z.eq_dec a 0) as [->|Hne]; [apply Z.bits_0|].
  apply Z.bits_above_log2; [lia|].
  assert (Z.log2 a < n); [|lia].
  apply Z.log2_lt_pow2; lia.
Qed.

(** Clearing the low three bits rounds down to a multiple of eight. *)
Lemma land_clear_low3 a :
  0 <= a < 2 ^ 64 -> Z.land a (2 ^ 64 - 8) = 8 * (a / 8).
Proof.
  intros Ha.
  replace (2 ^ 64 - 8) with (Z.shiftl (Z.ones 61) 3) by reflexivity.
  replace (8 * (a / 8)) with (Z.shiftl (Z.shiftr a 3) 3).
  2:{ rewrite Z.shiftl_mul_pow2, Z.shiftr_div_pow2 by lia.
      change (2 ^ 3) with 8. lia. }
  apply Z.bits_inj'. intros i Hi.
  rewrite Z.land_spec, !Z.shiftl_spec by lia.
  destruct (Z.ltb_spec i 3) as [Hlt|Hge].
  - rewrite !(Z.testbit_neg_r _ (i - 3)) by lia. apply andb_false_r.
  - rewrite Z.shiftr_spec by lia. replace (i - 3 + 3) with i by lia.
    destruct (Z.ltb_spec i 64) as [Hlt64|Hge64].
    + rewrite Z.ones_spec_low by lia. apply andb_true_r.
    + rewrite (testbit_above a 64) by lia. reflexivity.
Qed.

Lemma align_up_8 v :
  0 <= v -> v + 7 < 2 ^ 64 -> align_up v 8 = 8 * ((v + 7) / 8).
Proof.
  intros H0 H1. unfold align_up, not64.
  change (u64 (8 - 1)) with 7. change (u64 (Z.lnot 7)) with (2 ^ 64 - 8).
  replace (v + 8 - 1) with (v + 7) by lia.
  rewrite u64_small by lia. apply land_clear_low3. lia.
Qed.

Lemma align_up_8_bounds v :
  0 <= v -> v + 7 < 2 ^ 64 -> v <= align_up v 8 <= v + 7.
Proof.
  intros H0 H1. rewrite align_up_8 by assumption.
  Z.div_mod_to_equations. lia.
Qed.

(** The bit test of [is_power_of_two] singles out the powers of two. *)
Lemma is_power_of_two_spec s :
  0 < s < 2 ^ 64 -> is_power_of_two s = true -> exists k, 0 <= k /\ s = 2 ^ k.
Proof.
  intros Hs H. unfold is_power_of_two in H.
  apply andb_true_iff in H as [_ H]. apply Z.eqb_eq in H.
  rewrite u64_small in H by lia.
  exists (Z.log2 s). split; [apply Z.log2_nonneg|].
  destruct (Z.log2_spec s) as [Hlo Hhi]; [lia|].
  destruct (Z.eq_dec s (2 ^ Z.log2 s)) as [|Hne]; [assumption|exfalso].
  assert (Hpos : 0 < 2 ^ Z.log2 s)
    by (apply Z.pow_pos_nonneg; [lia|apply Z.log2_nonneg]).
  assert (Hk : Z.log2 (s - 1) = Z.log2 s).
  { apply Z.log2_unique; [apply Z.log2_nonneg|]. rewrite <- Z.add_1_r. lia. }
  assert (Hb : Z.testbit (Z.land s (s - 1)) (Z.log2 s) = true).
  { rewrite Z.land_spec, Z.bit_log2 by lia.
    rewrite <- Hk, Z.bit_log2 by lia. reflexivity. }
  rewrite H, Z.bits_0 in Hb. discriminate.
Qed.

Lemma land_mask_mod s off :
  0 < s < 2 ^ 64 -> is_power_of_two s = true -> 0 <= off ->
  Z.land off (u64 (s - 1)) = off mod s.
Proof.
  intros Hs Hp Hoff.
  destruct (is_power_of_two_spec s Hs Hp) as (k & Hk & ->).
  rewrite u64_small by lia.
  rewrite <- Z.land_ones by assumption.
  rewrite Z.ones_equiv. reflexivity.
Qed.

(* ===================================================================== *)
(** ** Configuration validation *)

Lemma is_valid_inv (c : ChannelConfig.t) :
  ChannelConfig.is_valid c = true ->
  is_power_of_two (ChannelConfig.ring_buffer_size c) = true /\
  ChannelConfig.max_message_size c < ChannelConfig.ring_buffer_size c / 2 /\
  4096 <= ChannelConfig.ring_buffer_size c /\
  64 <= ChannelConfig.max_message_size c.
Proof.
  unfold ChannelConfig.is_valid. intros H.
  destruct (is_power_of_two (ChannelConfig.ring_buffer_size c));
    [|discriminate].
  destruct (Z.geb_spec (ChannelConfig.max_message_size c)
              (ChannelConfig.ring_buffer_size c / 2)); [discriminate|].
  destruct (Z.ltb_spec (ChannelConfig.ring_buffer_size c) 4096);
    [discriminate|].
  destruct (Z.ltb_spec (ChannelConfig.max_message_size c) 64);
    [discriminate|].
  repeat split; assumption.
Qed.

(** A power of two that is at least 4096 is a multiple of 4096. *)
Lemma pow2_ge_4096 k :
  0 <= k -> 4096 <= 2 ^ k -> exists t, 0 < t /\ 2 ^ k = 4096 * t.
Proof.
  intros Hk H.
  assert (12 <= k).
  { destruct (Z.le_gt_cases 12 k) as [|Hlt]; [assumption|exfalso].
    assert (2 ^ k < 2 ^ 12) by (apply Z.pow_lt_mono_r; lia).
    change (2 ^ 12) with 4096 in *. lia. }
  exists (2 ^ (k - 12)). split; [apply Z.pow_pos_nonneg; lia|].
  change 4096 with (2 ^ 12). rewrite <- Z.pow_add_r by lia.
  f_equal. lia.
Qed.

(** C5 as stated does not hold: the configuration with a 4096-byte ring and
    [max_message_size = 2047] is accepted by [is_valid], yet
    [2047 + sizeof(MessageHeader) = 2079] exceeds half the ring, 2048. *)
Lemma C5_half_ring_counterexample :
  ChannelConfig.is_valid c5_config = true /\
  ~ (ChannelConfig.max_message_size c5_config + MessageHeader.sizeof
     <= ChannelConfig.ring_buffer_size c5_config / 2).
Proof.
  split; [reflexivity|].
  intros H. vm_compute in H. apply H. reflexivity.
Qed.

(** C5, amended: every configuration accepted by [is_valid] has
    [64 <= max_message_size < ring_size / 2] and [ring_size >= 4096]; the
    message header is not counted in the bound, so a frame of a
    maximum-size message takes at most [ring_size / 2 + 32] bytes, which
    fits in the ring. *)
Theorem C5_valid_config_bounds (c : ChannelConfig.t) :
  ChannelConfig.ring_buffer_size c < 2 ^ 64 ->
  ChannelConfig.is_valid c = true ->
  64 <= ChannelConfig.max_message_size c
     < ChannelConfig.ring_buffer_size c / 2 /\
  4096 <= ChannelConfig.ring_buffer_size c /\
  RingBuffer.total_size (ChannelConfig.max_message_size c)
    <= ChannelConfig.ring_buffer_size c / 2 + MessageHeader.sizeof /\
  RingBuffer.total_size (ChannelConfig.max_message_size c)
    <= ChannelConfig.ring_buffer_size c.
Proof.
  intros Hlt Hv. destruct (is_valid_inv c Hv) as (Hp & Hmax & Hring & Hmin).
  destruct (is_power_of_two_spec (ChannelConfig.ring_buffer_size c))
    as (k & Hk & Hpow); [lia|assumption|].
  rewrite Hpow in Hring. destruct (pow2_ge_4096 k Hk Hring) as (t & Ht & Hkt).
  rewrite <- Hpow in Hkt.
  unfold RingBuffer.total_size, MessageHeader.sizeof.
  rewrite Hkt in *.
  assert (Hhalf : 4096 * t / 2 = 2048 * t)
    by (Z.div_mod_to_equations; lia).
  rewrite Hhalf in *.
  rewrite align_up_8 by lia.
  assert (8 * ((ChannelConfig.max_message_size c + 7) / 8) <= 2048 * t)
    by (Z.div_mod_to_equations; lia).
  rewrite u64_small by (Z.div_mod_to_equations; lia).
  lia.
Qed.

Lemma C5_valid_config_bounds_witness :
  64 <= 1024 < 4096 / 2 /\
  4096 <= 4096 /\
  RingBuffer.total_size 1024 <= 4096 / 2 + MessageHeader.sizeof /\
  RingBuffer.total_size 1024 <= 4096.
Proof.
  apply (C5_valid_config_bounds (ChannelConfig.mk 4096 1024 0 0 false false)).
  - reflexivity.
  - reflexivity.
Defined.

(* ===================================================================== *)
(** ** The version gate *)

(** With a minor below 256 the packed field keeps the major intact: the
    gate then compares majors, whatever the minor and patch are. *)
Lemma header_version_major (M m p : Z) h ring_size flags pid :
  0 <= M < 2 ^ 16 -> 0 <= m < 2 ^ 8 -> 0 <= p < 2 ^ 16 ->
  Version.major
    (Handshake.header_version
       (Handshake.initialize_header_at (Version.mk M m p) h ring_size flags
          pid)) = M.
Proof.
  intros HM Hm Hp. unfold Handshake.header_version. cbn.
  unfold Version.as_uint32. cbn.
  rewrite !Z.shiftl_mul_pow2 by lia.
  rewrite (u32_small M), (u32_small m), (u32_small p) by lia.
  rewrite !(u32_small (_ * _)) by lia.
  rewrite !Z.shiftr_lor.
  rewrite !Z.shiftr_div_pow2 by lia.
  rewrite Z.div_mul by lia.
  rewrite (Z.div_small (m * 2 ^ 8)) by lia.
  rewrite (Z.div_small p) by lia.
  rewrite !Z.lor_0_r.
  change 65535 with (Z.ones 16). rewrite Z.land_ones by lia.
  unfold u16. rewrite Z.mod_mod by lia. apply Z.mod_small. lia.
Qed.

(** C6: the packing shifts the 16-bit minor by only 8 bits, so a minor of
    256 or more spills into the bits of the major.  A region written at
    version [(1, 512, 0)] carries [0x00030000]; every peer at a version
    [(1, m2, p2)] reads major 3 from it and fails with [VersionMismatch],
    although the majors agree.  A region written at [(0, 256, 0)] carries
    [0x00010000] and passes the gate of every such peer, although the
    majors differ. *)
Theorem C6_version_gate_minor_spill (m2 p2 : Z) h flags pid :
  Version.as_uint32 (Version.mk 1 512 0) = 0x00030000 /\
  Handshake.validate_header_at (Version.mk 1 m2 p2)
    (Handshake.initialize_header_at (Version.mk 1 512 0) h 4096 flags pid)
  = Err VersionMismatch /\
  Version.as_uint32 (Version.mk 0 256 0) = 0x00010000 /\
  Handshake.validate_header_at (Version.mk 1 m2 p2)
    (Handshake.initialize_header_at (Version.mk 0 256 0) h 4096 flags pid)
  = Ok tt.
Proof. repeat split. Qed.

(* ===================================================================== *)
(** ** Attach *)

Lemma validate_initialized h ring_size flags pid :
  is_power_of_two ring_size = true ->
  Handshake.validate_header
    (Handshake.initialize_header h ring_size flags pid) = Ok tt.
Proof.
  intros Hp. unfold is_power_of_two in Hp.
  apply andb_true_iff in Hp as [Hnz Hland].
  apply negb_true_iff in Hnz.
  unfold Handshake.validate_header, Handshake.validate_header_at.
  cbn [Handshake.initialize_header Handshake.initialize_header_at
       SharedMemoryHeader.magic SharedMemoryHeader.ring_buffer_size].
  rewrite Z.eqb_refl, Hnz, Hland. reflexivity.
Qed.

(** On a region whose magic is not the sentinel, [Channel::open] with an
    accepted configuration initialises the header and succeeds. *)
Lemma open_uninitialized name config (platform : Platform) pid memory :
  ChannelConfig.is_valid config = true ->
  (forall size, platform name size true = Ok memory) ->
  SharedMemoryHeader.magic (header memory) <> SharedMemoryHeader.MAGIC ->
  Channel.open name config platform pid =
    (Ok (Channel.make name config
           (u64 (align_up SharedMemoryHeader.sizeof CACHE_LINE_SIZE
                 + ChannelConfig.ring_buffer_size config))),
     Some {| header :=
               Handshake.initialize_header (header memory)
                 (ChannelConfig.ring_buffer_size config)
                 (ChannelConfig.flags config) pid;
             ring := ring memory |}).
Proof.
  intros Hv Hplat Hmagic. unfold Channel.open.
  rewrite Hv, Hplat. cbn [negb].
  apply Z.eqb_neq in Hmagic. rewrite Hmagic. cbn [negb].
  destruct (is_valid_inv config Hv) as (Hp & _).
  unfold Handshake.sender_handshake. cbn [header].
  rewrite validate_initialized by assumption.
  cbn [Handshake.initialize_header Handshake.initialize_header_at
       SharedMemoryHeader.magic].
  rewrite Z.eqb_refl. reflexivity.
Qed.

(** C7: [Handshake::receiver_handshake] does refuse a region whose magic is
    0 with [ChannelNotFound] and leaves its header alone, but the receiver
    never runs it.  [Receiver::Impl] attaches through [Channel::open], the
    sender's path, which on such a region writes a fresh header (magic,
    version, ring size, zeroed indices) and succeeds. *)
Theorem C7_receiver_attach_initializes name config (platform : Platform) pid
    memory :
  ChannelConfig.is_valid config = true ->
  (forall size, platform name size true = Ok memory) ->
  SharedMemoryHeader.magic (header memory) = 0 ->
  Handshake.receiver_handshake (header memory) pid
    = (Err ChannelNotFound, header memory) /\
  Receiver.channel_ (fst (Receiver.make name config platform pid))
    = Some (Channel.make name config
              (u64 (align_up SharedMemoryHeader.sizeof CACHE_LINE_SIZE
                    + ChannelConfig.ring_buffer_size config))) /\
  snd (Receiver.make name config platform pid)
    = Some {| header :=
                Handshake.initialize_header (header memory)
                  (ChannelConfig.ring_buffer_size config)
                  (ChannelConfig.flags config) pid;
              ring := ring memory |}.
Proof.
  intros Hv Hplat Hmagic. split.
  - unfold Handshake.receiver_handshake. rewrite Hmagic. reflexivity.
  - unfold Receiver.make.
    rewrite (open_uninitialized name config platform pid memory Hv Hplat)
      by (rewrite Hmagic; discriminate).
    split; reflexivity.
Qed.

Lemma C7_receiver_attach_initializes_witness :
  Handshake.receiver_handshake (header zero_region) 7
    = (Err ChannelNotFound, header zero_region) /\
  Receiver.channel_ (fst (Receiver.make "demo" small_config zero_platform 7))
    = Some small_channel /\
  snd (Receiver.make "demo" small_config zero_platform 7)
    = Some {| header :=
                Handshake.initialize_header (header zero_region) 4096 0 7;
              ring := ring zero_region |}.
Proof.
  apply (C7_receiver_attach_initializes "demo" small_config zero_platform 7
           zero_region).
  - reflexivity.
  - intros size. reflexivity.
  - reflexivity.
Defined.

(** C9 as stated does not hold: [c9_config] has flag bit 4 set, a reserved
    position, and [Channel::open] on a fresh region accepts it. *)
Lemma C9_reserved_flag_counterexample :
  Z.testbit (ChannelConfig.flags c9_config) 4 = true /\
  is_ok (fst (Channel.open "demo" c9_config zero_platform 7)) = true.
Proof. split; reflexivity. Qed.

(** C9, amended: attach does not look at the flags.  The validator's verdict
    and the outcome of [Channel::open] (success, or which error) are the
    same whatever value the flags field holds, reserved bits included; on
    first touch the flags are copied into the header as they are. *)
Theorem C9_flags_not_validated (f : Z) name config (platform : Platform) pid :
  ChannelConfig.is_valid (ChannelConfig.with_flags f config)
    = ChannelConfig.is_valid config /\
  error (fst (Channel.open name (ChannelConfig.with_flags f config) platform
                pid))
    = error (fst (Channel.open name config platform pid)) /\
  (forall memory,
     ChannelConfig.is_valid config = true ->
     (forall size, platform name size true = Ok memory) ->
     SharedMemoryHeader.magic (header memory) <> SharedMemoryHeader.MAGIC ->
     option_map (fun m => SharedMemoryHeader.flags (header m))
       (snd (Channel.open name (ChannelConfig.with_flags f config) platform
               pid)) = Some f).
Proof.
  split; [reflexivity|]. split.
  - unfold Channel.open.
    change (ChannelConfig.is_valid (ChannelConfig.with_flags f config))
      with (ChannelConfig.is_valid config).
    destruct (ChannelConfig.is_valid config); [|reflexivity].
    cbn [negb ChannelConfig.with_flags ChannelConfig.ring_buffer_size
         ChannelConfig.flags].
    destruct (platform name _ true) as [memory|e]; [|reflexivity].
    destruct (SharedMemoryHeader.magic (header memory)
              =? SharedMemoryHeader.MAGIC) eqn:Hm; cbn [negb].
    + destruct (Handshake.validate_header (header memory)); [|reflexivity].
      destruct (Handshake.sender_handshake (header memory)); reflexivity.
    + unfold Handshake.sender_handshake, Handshake.validate_header,
        Handshake.validate_header_at.
      cbn [Handshake.initialize_header Handshake.initialize_header_at
           SharedMemoryHeader.magic SharedMemoryHeader.ring_buffer_size
           SharedMemoryHeader.version Handshake.header_version].
      rewrite Z.eqb_refl. cbn [negb].
      destruct (negb (Version.is_compatible_with _ _)); [reflexivity|].
      destruct (_ || _); reflexivity.
  - intros memory Hv Hplat Hmagic.
    rewrite (open_uninitialized name (ChannelConfig.with_flags f config)
               platform pid memory) by assumption.
    reflexivity.
Qed.

Lemma C9_flags_not_validated_witness :
  ChannelConfig.is_valid (ChannelConfig.with_flags 16 small_config)
    = ChannelConfig.is_valid small_config /\
  error (fst (Channel.open "demo" (ChannelConfig.with_flags 16 small_config)
                zero_platform 7))
    = error (fst (Channel.open "demo" small_config zero_platform 7)) /\
  option_map (fun m => SharedMemoryHeader.flags (header m))
    (snd (Channel.open "demo" (ChannelConfig.with_flags 16 small_config)
            zero_platform 7)) = Some 16.
Proof.
  destruct (C9_flags_not_validated 16 "demo" small_config zero_platform 7)
    as (Hvalid & Herror & Hflags).
  split; [exact Hvalid|]. split; [exact Herror|].
  apply (Hflags zero_region).
  - reflexivity.
  - intros size. reflexivity.
  - vm_compute. discriminate.
Defined.

(* ===================================================================== *)
(** ** Sending on a sender that is not ready *)

Lemma sender_make_failed name config (platform : Platform) pid :
  is_error (fst (Channel.open name config platform pid)) = true ->
  Sender.is_ready (fst (Sender.make name config platform pid)) = false.
Proof.
  unfold Sender.make.
  destruct (Channel.open name config platform pid) as [[c|e] memory];
    cbn; [discriminate|reflexivity].
Qed.

(** C10: a sender whose channel could not be opened (the constructor
    leaves [channel_] null), or whose channel is closed, answers every
    [send_bytes] with [ChannelClosed] as an ordinary result value and
    leaves the shared region as it was. *)
Theorem C10_send_on_unready_sender (s : Sender.t) data size now shm :
  (exists name config (platform : Platform) pid,
     s = fst (Sender.make name config platform pid) /\
     is_error (fst (Channel.open name config platform pid)) = true) \/
  Sender.channel_ s = None \/
  (exists c, Sender.channel_ s = Some c /\ Channel.is_open c = false) ->
  Sender.is_ready s = false /\
  Sender.send_bytes s data size now shm = (Err ChannelClosed, shm).
Proof.
  intros H.
  assert (Hr : Sender.is_ready s = false).
  { destruct H as [(name & config & platform & pid & -> & Herr)
                  |[Hnone|(c & Hc & Hclosed)]].
    - apply sender_make_failed. assumption.
    - unfold Sender.is_ready. rewrite Hnone. reflexivity.
    - unfold Sender.is_ready. rewrite Hc. assumption. }
  split; [assumption|].
  unfold Sender.send_bytes. rewrite Hr. reflexivity.
Qed.

Lemma C10_send_on_unready_sender_witness :
  Sender.is_ready failed_sender = false /\
  Sender.send_bytes failed_sender [x41] 1 0 zero_region
    = (Err ChannelClosed, zero_region).
Proof.
  apply (C10_send_on_unready_sender failed_sender [x41] 1 0 zero_region).
  right. left. reflexivity.
Defined.

(* ===================================================================== *)
(** ** Reads that do not consume *)

(** C3: on a non-empty channel whose oldest frame carries the sentinel, a
    [try_read] with a buffer size below the frame's payload size fails,
    stores the payload size in the in-out size, and leaves the header (both
    indices included), the ring bytes and the caller's buffer as they
    were. *)
Theorem C3_read_into_small_buffer (rb : RingBuffer.t) data data_size shm :
  SharedMemoryHeader.read_index (header shm)
    < SharedMemoryHeader.write_index (header shm) ->
  MessageHeader.magic (RingBuffer.peek_header rb shm) = MessageHeader.MAGIC ->
  data_size < MessageHeader.size (RingBuffer.peek_header rb shm) ->
  RingBuffer.try_read rb data data_size shm
    = RingBuffer.mk_read false data
        (MessageHeader.size (RingBuffer.peek_header rb shm)) shm.
Proof.
  intros Hne Hmagic Hsmall.
  unfold RingBuffer.try_read. fold (RingBuffer.peek_header rb shm).
  destruct (Z.geb_spec (SharedMemoryHeader.read_index (header shm))
              (SharedMemoryHeader.write_index (header shm))); [lia|].
  rewrite Hmagic, Z.eqb_refl. cbn [negb].
  destruct (Z.gtb_spec (MessageHeader.size (RingBuffer.peek_header rb shm))
              data_size); [reflexivity|lia].
Qed.

Lemma C3_read_into_small_buffer_witness :
  RingBuffer.try_read small_ring [x00; x00] 2 abc_region
    = RingBuffer.mk_read false [x00; x00] 3 abc_region.
Proof.
  apply (C3_read_into_small_buffer small_ring [x00; x00] 2 abc_region).
  - reflexivity.
  - reflexivity.
  - reflexivity.
Defined.

Lemma try_read_bad_magic (rb : RingBuffer.t) data data_size shm :
  MessageHeader.magic (RingBuffer.peek_header rb shm) <> MessageHeader.MAGIC ->
  RingBuffer.try_read rb data data_size shm
    = RingBuffer.mk_read false data data_size shm.
Proof.
  intros Hmagic. unfold RingBuffer.try_read.
  fold (RingBuffer.peek_header rb shm).
  destruct (_ >=? _); [reflexivity|].
  apply Z.eqb_neq in Hmagic. rewrite Hmagic. reflexivity.
Qed.

(** C8 as stated does not hold: [corrupt_region] is non-empty and the frame
    at its [read_index] has magic 0, yet [poll_one] reports success with
    [false], the answer it also gives on an empty channel; it does not
    surface [MessageCorrupted]. *)
Lemma C8_corrupt_frame_counterexample :
  SharedMemoryHeader.read_index (header corrupt_region)
    < SharedMemoryHeader.write_index (header corrupt_region) /\
  MessageHeader.magic (RingBuffer.peek_header small_ring corrupt_region)
    <> MessageHeader.MAGIC /\
  Receiver.result (Receiver.poll_one small_receiver corrupt_region)
    = Ok false /\
  Receiver.result (Receiver.poll_one small_receiver corrupt_region)
    <> Err MessageCorrupted.
Proof.
  split; [reflexivity|]. split; [vm_compute; discriminate|].
  split; [reflexivity|]. vm_compute. discriminate.
Qed.

(** C8, amended: on a non-empty channel whose oldest frame's magic differs
    from the sentinel, [try_read] returns [false] and changes nothing (the
    indices, the ring, the caller's buffer and size); [poll_one] turns that
    into a successful result carrying [false], without calling the handler
    and without an error code; and any number of further polls end the same
    way on the same unchanged region. *)
Theorem C8_corrupt_frame_read (r : Receiver.t) (c : Channel.t) shm data
    data_size (n : nat) :
  Receiver.channel_ r = Some c ->
  Channel.is_open c = true ->
  SharedMemoryHeader.read_index (header shm)
    < SharedMemoryHeader.write_index (header shm) ->
  MessageHeader.magic (RingBuffer.peek_header (Channel.ring_buffer c) shm)
    <> MessageHeader.MAGIC ->
  RingBuffer.try_read (Channel.ring_buffer c) data data_size shm
    = RingBuffer.mk_read false data data_size shm /\
  Receiver.poll_one r shm = Receiver.mk_poll (Ok false) None r shm /\
  Receiver.poll_many n r shm = (replicate n (Ok false), r, shm).
Proof.
  intros Hc Hopen Hne Hmagic.
  assert (Hpoll : Receiver.poll_one r shm
                  = Receiver.mk_poll (Ok false) None r shm).
  { unfold Receiver.poll_one. rewrite Hc, Hopen. cbn [negb].
    rewrite try_read_bad_magic by assumption. reflexivity. }
  split; [apply try_read_bad_magic; assumption|].
  split; [assumption|].
  induction n as [|n IH]; [reflexivity|].
  cbn [Receiver.poll_many]. rewrite Hpoll.
  cbn [Receiver.self Receiver.shm Receiver.result]. rewrite IH. reflexivity.
Qed.

Lemma C8_corrupt_frame_read_witness :
  RingBuffer.try_read (Channel.ring_buffer small_channel) [x00] 1
    corrupt_region = RingBuffer.mk_read false [x00] 1 corrupt_region /\
  Receiver.poll_one small_receiver corrupt_region
    = Receiver.mk_poll (Ok false) None small_receiver corrupt_region /\
  Receiver.poll_many 3 small_receiver corrupt_region
    = (replicate 3 (Ok false), small_receiver, corrupt_region).
Proof.
  apply (C8_corrupt_frame_read small_receiver small_channel corrupt_region
           [x00] 1 3).
  - reflexivity.
  - reflexivity.
  - reflexivity.
  - vm_compute. discriminate.
Defined.

(* ===================================================================== *)
(** ** A full ring *)

(** In a state that satisfies the ring's invariants the free space the code
    computes is the plain difference, and the frame size is the header plus
    the payload rounded up to a multiple of eight. *)
Lemma available_write_space_exact (rb : RingBuffer.t) h :
  0 <= SharedMemoryHeader.read_index h <= SharedMemoryHeader.write_index h ->
  SharedMemoryHeader.write_index h < 2 ^ 64 ->
  SharedMemoryHeader.write_index h - SharedMemoryHeader.read_index h
    <= RingBuffer.size_ rb < 2 ^ 64 ->
  RingBuffer.available_write_space rb h
    = RingBuffer.size_ rb
      - (SharedMemoryHeader.write_index h - SharedMemoryHeader.read_index h).
Proof.
  intros Hr Hw Hs. unfold RingBuffer.available_write_space.
  rewrite (u64_small (_ - SharedMemoryHeader.read_index h)) by lia.
  apply u64_small. lia.
Qed.

Lemma total_size_exact size :
  0 <= size -> size + 39 < 2 ^ 64 ->
  RingBuffer.total_size size = 32 + 8 * ((size + 7) / 8).
Proof.
  intros H0 H1. unfold RingBuffer.total_size, MessageHeader.sizeof.
  rewrite align_up_8 by lia. apply u64_small.
  Z.div_mod_to_equations. lia.
Qed.

Lemma try_write_full (rb : RingBuffer.t) data size now shm :
  RingBuffer.available_write_space rb (header shm)
    < RingBuffer.total_size size ->
  RingBuffer.try_write rb data size now shm = (false, shm).
Proof.
  intros Hfull. unfold RingBuffer.try_write.
  fold (RingBuffer.total_size size).
  fold (RingBuffer.available_write_space rb (header shm)).
  destruct (Z.ltb_spec (RingBuffer.available_write_space rb (header shm))
              (RingBuffer.total_size size)); [reflexivity|lia].
Qed.

(** C2 as stated does not hold for every payload size: on [full_region]
    (64 bytes free) a send of 2000 bytes, whose frame needs 2032, is turned
    away by the size guard with [MessageTooLarge] before the ring is
    consulted, because 2000 exceeds [max_message_size = 1024]. *)
Lemma C2_oversize_counterexample :
  Sender.is_ready small_sender = true /\
  RingBuffer.available_write_space small_ring (header full_region)
    < RingBuffer.total_size 2000 /\
  fst (Sender.send_bytes small_sender (replicate 2000 x00) 2000 0 full_region)
    = Err MessageTooLarge /\
  fst (Sender.send_bytes small_sender (replicate 2000 x00) 2000 0 full_region)
    <> Err ChannelFull.
Proof.
  split; [reflexivity|]. split; [reflexivity|].
  split; [reflexivity|]. vm_compute. discriminate.
Qed.

(** C2, amended: for every state of an open channel and every payload size
    not above [max_message_size], when the free space
    [ring_size - (write_index - read_index)] is smaller than the frame size
    [32 + align_up(size, 8)] (both in [size_t] arithmetic, as the code
    computes them), [try_write] returns [false], [send_bytes] returns
    [ChannelFull], and the region (header, indices and ring bytes) is left
    exactly as it was. *)
Theorem C2_full_ring_send (s : Sender.t) (c : Channel.t) data size now shm :
  Sender.channel_ s = Some c ->
  Channel.is_open c = true ->
  size <= ChannelConfig.max_message_size (Sender.config_ s) ->
  RingBuffer.available_write_space (Channel.ring_buffer c) (header shm)
    < RingBuffer.total_size size ->
  RingBuffer.try_write (Channel.ring_buffer c) data size now shm
    = (false, shm) /\
  Sender.send_bytes s data size now shm = (Err ChannelFull, shm).
Proof.
  intros Hc Hopen Hsize Hfull.
  pose proof (try_write_full _ data size now shm Hfull) as Hw.
  split; [assumption|].
  unfold Sender.send_bytes, Sender.is_ready. rewrite Hc, Hopen. cbn [negb].
  destruct (Z.gtb_spec size
              (ChannelConfig.max_message_size (Sender.config_ s))); [lia|].
  rewrite Hw. destruct (ChannelConfig.overwrite_on_full _); reflexivity.
Qed.

Lemma C2_full_ring_send_witness :
  RingBuffer.try_write (Channel.ring_buffer small_channel)
    (replicate 256 x00) 256 0 full_region = (false, full_region) /\
  Sender.send_bytes small_sender (replicate 256 x00) 256 0 full_region
    = (Err ChannelFull, full_region).
Proof.
  apply (C2_full_ring_send small_sender small_channel (replicate 256 x00) 256
           0 full_region).
  - reflexivity.
  - reflexivity.
  - vm_compute. discriminate.
  - reflexivity.
Defined.

(* ===================================================================== *)
(** ** Filling a 4096-byte ring with 256-byte messages *)

Section Fill256.

Variable s : Sender.t.
Variable c : Channel.t.
Hypothesis Hchannel : Sender.channel_ s = Some c.
Hypothesis Hopen : Channel.is_open c = true.
Hypothesis Hsize : RingBuffer.size_ (Channel.ring_buffer c) = 4096.
Hypothesis Hmax : 256 <= ChannelConfig.max_message_size (Sender.config_ s).

(** With [k < 14] frames of 288 bytes in the ring and nothing consumed, one
    more 256-byte message is accepted and moves [write_index] by 288. *)
Lemma send_256_accepted payload now shm (k : nat) :
  (k < 14)%nat ->
  SharedMemoryHeader.write_index (header shm) = 288 * Z.of_nat k ->
  SharedMemoryHeader.read_index (header shm) = 0 ->
  exists shm',
    Sender.send_bytes s payload 256 now shm = (Ok tt, shm') /\
    SharedMemoryHeader.write_index (header shm') = 288 * Z.of_nat (S k) /\
    SharedMemoryHeader.read_index (header shm') = 0.
Proof.
  intros Hk Hw Hr.
  unfold Sender.send_bytes, Sender.is_ready. rewrite Hchannel, Hopen.
  cbn [negb].
  destruct (Z.gtb_spec 256
              (ChannelConfig.max_message_size (Sender.config_ s))); [lia|].
  unfold RingBuffer.try_write.
  change (u64 (MessageHeader.sizeof + align_up 256 8)) with 288.
  rewrite Hsize, Hw, Hr.
  rewrite (u64_small (288 * Z.of_nat k - 0)) by lia.
  rewrite (u64_small (4096 - _)) by lia.
  destruct (Z.ltb_spec (4096 - (288 * Z.of_nat k - 0)) 288); [lia|].
  eexists. split; [reflexivity|].
  cbn [header SharedMemoryHeader.store_write_index
       SharedMemoryHeader.write_index SharedMemoryHeader.read_index].
  split; [|assumption]. rewrite u64_small by lia. lia.
Qed.

(** With 14 such frames in the ring, 64 bytes are free and the next one is
    refused. *)
Lemma send_256_refused payload now shm :
  SharedMemoryHeader.write_index (header shm) = 288 * 14 ->
  SharedMemoryHeader.read_index (header shm) = 0 ->
  Sender.send_bytes s payload 256 now shm = (Err ChannelFull, shm).
Proof.
  intros Hw Hr.
  unfold Sender.send_bytes, Sender.is_ready. rewrite Hchannel, Hopen.
  cbn [negb].
  destruct (Z.gtb_spec 256
              (ChannelConfig.max_message_size (Sender.config_ s))); [lia|].
  rewrite try_write_full.
  - destruct (ChannelConfig.overwrite_on_full _); reflexivity.
  - unfold RingBuffer.available_write_space. rewrite Hsize, Hw, Hr.
    reflexivity.
Qed.

Lemma send_all_256 msgs shm (k : nat) :
  (k <= 14)%nat ->
  length msgs = (15 - k)%nat ->
  Forall (fun m => length (fst m) = 256%nat) msgs ->
  SharedMemoryHeader.write_index (header shm) = 288 * Z.of_nat k ->
  SharedMemoryHeader.read_index (header shm) = 0 ->
  fst (Sender.send_all s msgs shm)
    = replicate (14 - k) (Ok tt) ++ [Err ChannelFull].
Proof.
  revert shm k. induction msgs as [|[payload now] rest IH];
    intros shm k Hk Hlen Hall Hw Hr.
  - cbn in Hlen. lia.
  - apply Forall_cons in Hall as [Hpay Hall]. cbn [fst] in Hpay.
    cbn [length] in Hlen. cbn [Sender.send_all]. rewrite Hpay.
    change (Z.of_nat 256) with 256.
    destruct (Nat.eq_dec k 14%nat) as [->|Hne].
    + rewrite send_256_refused by (assumption || (rewrite Hw; reflexivity)).
      destruct rest; [reflexivity|cbn in Hlen; lia].
    + destruct (send_256_accepted payload now shm k) as (shm' & Hs & Hw' & Hr');
        [lia|assumption|assumption|].
      rewrite Hs.
      specialize (IH shm' (S k) ltac:(lia) ltac:(lia) Hall Hw' Hr').
      destruct (Sender.send_all s rest shm') as [rs shm2].
      cbn [fst] in *. rewrite IH.
      replace (14 - k)%nat with (S (14 - S k)) by lia. reflexivity.
Qed.

End Fill256.

(** C4: on a freshly initialised 4096-byte ring (both indices 0), a ready
    sender accepts fourteen 256-byte messages in a row (288 bytes each,
    4032 in all) and answers the fifteenth with [ChannelFull], whatever the
    payload bytes and clock readings are. *)
Theorem C4_fourteen_messages_fit (s : Sender.t) (c : Channel.t)
    (msgs : list (list byte * Z)) shm :
  Sender.channel_ s = Some c ->
  Channel.is_open c = true ->
  RingBuffer.size_ (Channel.ring_buffer c) = 4096 ->
  256 <= ChannelConfig.max_message_size (Sender.config_ s) ->
  SharedMemoryHeader.write_index (header shm) = 0 ->
  SharedMemoryHeader.read_index (header shm) = 0 ->
  length msgs = 15%nat ->
  Forall (fun m => length (fst m) = 256%nat) msgs ->
  RingBuffer.total_size 256 = 288 /\
  fst (Sender.send_all s msgs shm)
    = replicate 14 (Ok tt) ++ [Err ChannelFull].
Proof.
  intros Hc Hopen Hsize Hmax Hw Hr Hlen Hall.
  split; [reflexivity|].
  apply (send_all_256 s c Hc Hopen Hsize Hmax msgs shm 0%nat).
  - lia.
  - assumption.
  - assumption.
  - rewrite Hw. reflexivity.
  - assumption.
Qed.

Lemma C4_fourteen_messages_fit_witness :
  RingBuffer.total_size 256 = 288 /\
  fst (Sender.send_all small_sender (replicate 15 (replicate 256 x00, 0))
         {| header := header_at 0 0; ring := replicate 4096 x00 |})
    = replicate 14 (Ok tt) ++ [Err ChannelFull].
Proof.
  apply (C4_fourteen_messages_fit small_sender small_channel
           (replicate 15 (replicate 256 x00, 0))
           {| header := header_at 0 0; ring := replicate 4096 x00 |}).
  - reflexivity.
  - reflexivity.
  - reflexivity.
  - vm_compute. discriminate.
  - reflexivity.
  - reflexivity.
  - reflexivity.
  - repeat constructor.
Defined.

(* ===================================================================== *)
(** ** Bytes in and out of the ring *)

Lemma Z_of_byte_of_Z z : Z_of_byte (byte_of_Z z) = z mod 256.
Proof.
  unfold Z_of_byte, byte_of_Z.
  assert (Hr : 0 <= z mod 256 < 256) by (apply Z.mod_pos_bound; lia).
  destruct (Byte.of_N (Z.to_N (z mod 256))) as [b|] eqn:Hb.
  - apply Byte.to_of_N in Hb. rewrite Hb. lia.
  - apply Byte.of_N_None_iff in Hb. lia.
Qed.

Lemma length_le_bytes n z : length (le_bytes n z) = n.
Proof.
  revert z. induction n as [|n IH]; intros z; cbn; [|rewrite IH]; reflexivity.
Qed.

Lemma le_value_le_bytes n z :
  le_value (le_bytes n z) = z mod 256 ^ Z.of_nat n.
Proof.
  revert z. induction n as [|n IH]; intros z.
  - cbn. rewrite Z.mod_1_r. reflexivity.
  - cbn [le_bytes le_value]. rewrite IH, Z_of_byte_of_Z.
    rewrite Nat2Z.inj_succ, Z.pow_succ_r by lia.
    rewrite Z.rem_mul_r by lia. reflexivity.
Qed.

(** Reading back the struct that was laid out in memory returns its magic
    and size fields (as 32-bit values). *)
Lemma of_bytes_to_bytes_magic h :
  MessageHeader.magic (MessageHeader.of_bytes (MessageHeader.to_bytes h))
    = u32 (MessageHeader.magic h).
Proof.
  unfold MessageHeader.of_bytes, MessageHeader.to_bytes.
  cbn [MessageHeader.magic].
  rewrite take_app_length' by (rewrite length_le_bytes; reflexivity).
  apply le_value_le_bytes.
Qed.

Lemma of_bytes_to_bytes_size h :
  MessageHeader.size (MessageHeader.of_bytes (MessageHeader.to_bytes h))
    = u32 (MessageHeader.size h).
Proof.
  unfold MessageHeader.of_bytes, MessageHeader.to_bytes.
  cbn [MessageHeader.size].
  rewrite drop_app_length' by (rewrite length_le_bytes; reflexivity).
  rewrite take_app_length' by (rewrite length_le_bytes; reflexivity).
  apply le_value_le_bytes.
Qed.

Lemma length_to_bytes h : length (MessageHeader.to_bytes h) = 32%nat.
Proof.
  unfold MessageHeader.to_bytes.
  rewrite !length_app, !length_le_bytes. reflexivity.
Qed.

Lemma length_memcpy dst pos src n : length (memcpy dst pos src n) = length dst.
Proof. unfold memcpy. apply length_inserts. Qed.

(** [memcpy] of [n] bytes that are available in [src] and fit in [dst]. *)
Lemma memcpy_lookup dst pos src n (i : nat) :
  0 <= pos -> 0 <= n ->
  n <= Z.of_nat (length src) ->
  pos + n <= Z.of_nat (length dst) ->
  memcpy dst pos src n !! i =
    if (pos <=? Z.of_nat i) && (Z.of_nat i <? pos + n)
    then src !! (i - Z.to_nat pos)%nat
    else dst !! i.
Proof.
  intros Hpos Hn Hsrc Hdst. unfold memcpy.
  assert (Hlen : length (take (Z.to_nat n) src) = Z.to_nat n)
    by (rewrite length_take; lia).
  destruct (Z.leb_spec pos (Z.of_nat i)) as [Hle|Hgt]; cbn [andb].
  - destruct (Z.ltb_spec (Z.of_nat i) (pos + n)) as [Hlt|Hge].
    + rewrite list_lookup_inserts by (rewrite ?Hlen; lia).
      apply lookup_take_lt. lia.
    + apply list_lookup_inserts_ge. rewrite Hlen. lia.
  - apply list_lookup_inserts_lt. lia.
Qed.

Lemma mod_sub_cases S p i :
  0 <= p < S -> 0 <= i < S ->
  (i - p) mod S = if p <=? i then i - p else i - p + S.
Proof.
  intros Hp Hi. destruct (Z.leb_spec p i).
  - apply Z.mod_small. lia.
  - rewrite <- (Z_mod_plus_full (i - p) 1 S).
    replace (i - p + 1 * S) with (i - p + S) by lia. apply Z.mod_small. lia.
Qed.

Lemma mod_add_cases S p j :
  0 <= p < S -> 0 <= j < S ->
  (p + j) mod S = if p + j <? S then p + j else p + j - S.
Proof.
  intros Hp Hj. destruct (Z.ltb_spec (p + j) S).
  - apply Z.mod_small. lia.
  - rewrite <- (Z_mod_plus_full (p + j) (-1) S).
    replace (p + j + -1 * S) with (p + j - S) by lia. apply Z.mod_small. lia.
Qed.

Section Ring.

Variable rb : RingBuffer.t.
Hypothesis Hsize : 0 < RingBuffer.size_ rb < 2 ^ 64.
Hypothesis Hpow : is_power_of_two (RingBuffer.size_ rb) = true.
Hypothesis Hmask : RingBuffer.mask_ rb = u64 (RingBuffer.size_ rb - 1).

Lemma ring_size_le : RingBuffer.size_ rb <= 2 ^ 63.
Proof.
  destruct (is_power_of_two_spec _ Hsize Hpow) as (k & Hk & Hpk).
  rewrite Hpk in *.
  assert (k < 64) by (apply (Z.pow_lt_mono_r_iff 2); lia).
  apply Z.pow_le_mono_r; lia.
Qed.

Lemma ring_pos off :
  0 <= off -> Z.land off (RingBuffer.mask_ rb) = off mod RingBuffer.size_ rb.
Proof. intros H. rewrite Hmask. now apply land_mask_mod. Qed.

(** [write_bytes]: byte [i] of the ring afterwards is byte
    [(i - offset) mod size_] of the source if that is below [size], and the
    old byte otherwise. *)
Lemma write_bytes_lookup buf src n off (i : nat) :
  Z.of_nat (length buf) = RingBuffer.size_ rb ->
  0 <= n <= RingBuffer.size_ rb ->
  n <= Z.of_nat (length src) ->
  0 <= off ->
  Z.of_nat i < RingBuffer.size_ rb ->
  RingBuffer.write_bytes rb buf src n off !! i =
    if (Z.of_nat i - off) mod RingBuffer.size_ rb <? n
    then src !! Z.to_nat ((Z.of_nat i - off) mod RingBuffer.size_ rb)
    else buf !! i.
Proof.
  intros Hbuf Hn Hsrc Hoff Hi.
  pose proof ring_size_le as H63.
  unfold RingBuffer.write_bytes. rewrite ring_pos by assumption.
  rewrite <- (Zminus_mod_idemp_r (Z.of_nat i) off).
  set (S := RingBuffer.size_ rb) in *.
  assert (Hp : 0 <= off mod S < S) by (apply Z.mod_pos_bound; lia).
  set (p := off mod S) in *.
  rewrite mod_sub_cases by lia.
  rewrite (u64_small (p + n)) by lia.
  destruct (Z.leb_spec (p + n) S) as [Hfit|Hwrap].
  - rewrite memcpy_lookup by lia.
    destruct (Z.leb_spec p (Z.of_nat i)) as [Hle|Hgt]; cbn [andb].
    + destruct (Z.ltb_spec (Z.of_nat i) (p + n));
        destruct (Z.ltb_spec (Z.of_nat i - p) n); try lia; [|reflexivity].
      f_equal. lia.
    + destruct (Z.ltb_spec (Z.of_nat i - p + S) n); [lia|reflexivity].
  - rewrite (u64_small (S - p)) by lia.
    rewrite (u64_small (n - (S - p))) by lia.
    rewrite memcpy_lookup;
      rewrite ?length_memcpy, ?length_drop; try lia.
    rewrite memcpy_lookup by lia.
    rewrite lookup_drop.
    destruct (Z.leb_spec 0 (Z.of_nat i)); [|lia]. cbn [andb].
    destruct (Z.ltb_spec (Z.of_nat i) (0 + (n - (S - p)))) as [Hlow|Hhigh].
    + destruct (Z.leb_spec p (Z.of_nat i)); [lia|].
      destruct (Z.ltb_spec (Z.of_nat i - p + S) n); [|lia].
      f_equal. lia.
    + destruct (Z.leb_spec p (Z.of_nat i)) as [Hle|Hgt]; cbn [andb].
      * destruct (Z.ltb_spec (Z.of_nat i) (p + (S - p))); [|lia].
        destruct (Z.ltb_spec (Z.of_nat i - p) n); [|lia].
        f_equal. lia.
      * destruct (Z.ltb_spec (Z.of_nat i - p + S) n); [lia|reflexivity].
Qed.

Lemma length_write_bytes buf src n off :
  length (RingBuffer.write_bytes rb buf src n off) = length buf.
Proof.
  unfold RingBuffer.write_bytes.
  destruct (_ <=? _); rewrite ?length_memcpy; reflexivity.
Qed.

Lemma length_read_bytes buf dst n off :
  length (RingBuffer.read_bytes rb buf dst n off) = length dst.
Proof.
  unfold RingBuffer.read_bytes.
  destruct (_ <=? _); rewrite ?length_memcpy; reflexivity.
Qed.

(** [read_bytes]: byte [j] of the destination afterwards is the ring's byte
    [(offset + j) mod size_] for [j < size], and the old byte otherwise. *)
Lemma read_bytes_lookup buf dst n off (j : nat) :
  Z.of_nat (length buf) = RingBuffer.size_ rb ->
  0 <= n <= RingBuffer.size_ rb ->
  n <= Z.of_nat (length dst) ->
  0 <= off ->
  RingBuffer.read_bytes rb buf dst n off !! j =
    if Z.of_nat j <? n
    then buf !! Z.to_nat ((off + Z.of_nat j) mod RingBuffer.size_ rb)
    else dst !! j.
Proof.
  intros Hbuf Hn Hdst Hoff.
  pose proof ring_size_le as H63.
  unfold RingBuffer.read_bytes. rewrite ring_pos by assumption.
  set (S := RingBuffer.size_ rb) in *.
  assert (Hp : 0 <= off mod S < S) by (apply Z.mod_pos_bound; lia).
  rewrite <- (Zplus_mod_idemp_l off).
  set (p := off mod S) in *.
  rewrite (u64_small (p + n)) by lia.
  destruct (Z.leb_spec 0 (Z.of_nat j)) as [_|]; [|lia].
  destruct (Z.leb_spec (p + n) S) as [Hfit|Hwrap].
  - rewrite memcpy_lookup; rewrite ?length_drop; try lia.
    rewrite lookup_drop.
    destruct (Z.leb_spec 0 (Z.of_nat j)) as [_|]; [|lia]. cbn [andb].
    change (0 + n) with n.
    destruct (Z.ltb_spec (Z.of_nat j) n); [|reflexivity].
    rewrite Z.mod_small by lia. f_equal. lia.
  - rewrite (u64_small (S - p)) by lia.
    rewrite (u64_small (n - (S - p))) by lia.
    rewrite memcpy_lookup; rewrite ?length_memcpy; try lia.
    rewrite memcpy_lookup; rewrite ?length_drop; try lia.
    rewrite lookup_drop.
    destruct (Z.leb_spec 0 (Z.of_nat j)) as [_|]; [|lia]. cbn [andb].
    change (0 + (S - p)) with (S - p).
    replace (S - p + (n - (S - p))) with n by lia.
    destruct (Z.ltb_spec (Z.of_nat j) n) as [Hj|Hj].
    + rewrite mod_add_cases by lia.
      destruct (Z.leb_spec (S - p) (Z.of_nat j)) as [Hhi|Hlo]; cbn [andb].
      * destruct (Z.ltb_spec (p + Z.of_nat j) S); [lia|]. f_equal. lia.
      * destruct (Z.ltb_spec (Z.of_nat j) (S - p)); [|lia].
        destruct (Z.ltb_spec (p + Z.of_nat j) S); [|lia]. f_equal. lia.
    + rewrite andb_false_r.
      destruct (Z.ltb_spec (Z.of_nat j) (S - p)); [lia|reflexivity].
Qed.

(** The first [n] bytes of a payload written at [off] are read back from
    [off]. *)
Lemma payload_read_back buf (P dst : list byte) n off :
  Z.of_nat (length buf) = RingBuffer.size_ rb ->
  Z.of_nat (length P) <= RingBuffer.size_ rb ->
  0 <= n <= Z.of_nat (length P) ->
  n <= Z.of_nat (length dst) ->
  0 <= off ->
  take (Z.to_nat n)
    (RingBuffer.read_bytes rb
       (RingBuffer.write_bytes rb buf P (Z.of_nat (length P)) off)
       dst n off) = take (Z.to_nat n) P.
Proof.
  intros Hbuf Hlen Hn Hdst Hoff.
  set (S := RingBuffer.size_ rb) in *.
  apply list_eq. intros j.
  destruct (Nat.lt_ge_cases j (Z.to_nat n)) as [Hj|Hj].
  - rewrite !lookup_take_lt by assumption.
    rewrite read_bytes_lookup;
      rewrite ?length_write_bytes; fold S; try lia.
    destruct (Z.ltb_spec (Z.of_nat j) n); [|lia].
    assert (Hi : 0 <= (off + Z.of_nat j) mod S < S)
      by (apply Z.mod_pos_bound; lia).
    rewrite write_bytes_lookup; fold S; try lia.
    rewrite Z2Nat.id by lia.
    rewrite Zminus_mod_idemp_l.
    replace (off + Z.of_nat j - off) with (Z.of_nat j) by lia.
    rewrite Z.mod_small by lia.
    destruct (Z.ltb_spec (Z.of_nat j) (Z.of_nat (length P))); [|lia].
    f_equal. lia.
  - rewrite !lookup_take_ge by assumption. reflexivity.
Qed.

(** A 32-byte header written at [w] is read back from [w], also after a
    payload was written behind it, as long as header and payload together
    fit in the ring. *)
Lemma header_read_back buf (hdr P : list byte) w :
  Z.of_nat (length buf) = RingBuffer.size_ rb ->
  length hdr = 32%nat ->
  32 + Z.of_nat (length P) <= RingBuffer.size_ rb ->
  0 <= w ->
  RingBuffer.read_bytes rb
    (RingBuffer.write_bytes rb
       (RingBuffer.write_bytes rb buf hdr 32 w)
       P (Z.of_nat (length P)) (w + 32))
    MessageHeader.zeroed 32 w = hdr.
Proof.
  intros Hbuf Hhdr Hfit Hw.
  set (S := RingBuffer.size_ rb) in *.
  apply list_eq. intros j.
  rewrite read_bytes_lookup;
    rewrite ?length_write_bytes; fold S; try (cbn; lia).
  destruct (Z.ltb_spec (Z.of_nat j) 32) as [Hj|Hj].
  - assert (Hi : 0 <= (w + Z.of_nat j) mod S < S)
      by (apply Z.mod_pos_bound; lia).
    rewrite write_bytes_lookup;
      rewrite ?length_write_bytes; fold S; try lia.
    rewrite Z2Nat.id by lia.
    rewrite Zminus_mod_idemp_l.
    replace (w + Z.of_nat j - (w + 32)) with (Z.of_nat j - 32) by lia.
    replace ((Z.of_nat j - 32) mod S) with (Z.of_nat j - 32 + S).
    2:{ rewrite <- (Z_mod_plus_full (Z.of_nat j - 32) 1 S).
        replace (Z.of_nat j - 32 + 1 * S) with (Z.of_nat j - 32 + S) by lia.
        symmetry. apply Z.mod_small. lia. }
    destruct (Z.ltb_spec (Z.of_nat j - 32 + S) (Z.of_nat (length P))); [lia|].
    rewrite write_bytes_lookup; fold S; try lia.
    rewrite Z2Nat.id by lia.
    rewrite Zminus_mod_idemp_l.
    replace (w + Z.of_nat j - w) with (Z.of_nat j) by lia.
    rewrite Z.mod_small by lia.
    destruct (Z.ltb_spec (Z.of_nat j) 32); [|lia].
    f_equal. lia.
  - rewrite (lookup_ge_None_2 hdr) by lia.
    apply lookup_ge_None_2. cbn. lia.
Qed.

End Ring.

(* ===================================================================== *)
(** ** Round trip *)

(** C1 as stated does not hold for every starting [write_index]: on the
    empty [wrap_region], whose indices are [2 ^ 64 - 8], [try_write] of the
    one-byte payload succeeds and stores [write_index = 32] (the sum wraps);
    the reader then finds [read_index >= write_index] and reports an empty
    ring. *)
Lemma C1_round_trip_counterexample :
  ~ round_trips small_ring [x41] 0 wrap_region [x00].
Proof.
  intros H.
  assert (Hw : RingBuffer.try_write small_ring [x41]
                 (Z.of_nat (length [x41])) 0 wrap_region
               = (true,
                  snd (RingBuffer.try_write small_ring [x41] 1 0 wrap_region)))
    by (vm_compute; reflexivity).
  destruct (H _ Hw) as [Hok _]. vm_compute in Hok. discriminate.
Qed.

(** What a write on an empty channel followed by a read delivers, for a
    payload of any length: the reader goes by the header's 32-bit size
    field, so it reports [|P| mod 2 ^ 32] and delivers that many leading
    bytes of [P]. *)
Lemma write_then_read (rb : RingBuffer.t) (P : list byte) now shm
    (buf : list byte) shm' :
  0 < RingBuffer.size_ rb < 2 ^ 64 ->
  is_power_of_two (RingBuffer.size_ rb) = true ->
  RingBuffer.mask_ rb = u64 (RingBuffer.size_ rb - 1) ->
  Z.of_nat (length (ring shm)) = RingBuffer.size_ rb ->
  SharedMemoryHeader.read_index (header shm)
    = SharedMemoryHeader.write_index (header shm) ->
  0 <= SharedMemoryHeader.write_index (header shm) ->
  Z.of_nat (length P) + 39 < 2 ^ 64 ->
  SharedMemoryHeader.write_index (header shm)
    + RingBuffer.total_size (Z.of_nat (length P)) < 2 ^ 64 ->
  u32 (Z.of_nat (length P)) <= Z.of_nat (length buf) ->
  RingBuffer.try_write rb P (Z.of_nat (length P)) now shm = (true, shm') ->
  let rd := RingBuffer.try_read rb buf (Z.of_nat (length buf)) shm' in
  RingBuffer.ok rd = true /\
  RingBuffer.data_size rd = u32 (Z.of_nat (length P)) /\
  take (Z.to_nat (u32 (Z.of_nat (length P)))) (RingBuffer.data rd)
    = take (Z.to_nat (u32 (Z.of_nat (length P)))) P.
Proof.
  intros Hsize Hpow Hmask Hring Hempty Hw0 Hlen Hnowrap Hbuf Hwrite.
  set (len := Z.of_nat (length P)) in *.
  set (w := SharedMemoryHeader.write_index (header shm)) in *.
  assert (Htot : RingBuffer.total_size len = 32 + 8 * ((len + 7) / 8))
    by (apply total_size_exact; lia).
  assert (Hge : len <= 8 * ((len + 7) / 8)) by (Z.div_mod_to_equations; lia).
  assert (Hu : 0 <= u32 len <= len)
    by (unfold u32; Z.div_mod_to_equations; lia).
  unfold RingBuffer.try_write in Hwrite.
  fold (RingBuffer.total_size len) in Hwrite.
  fold w in Hwrite. rewrite Hempty in Hwrite. fold w in Hwrite.
  rewrite Z.sub_diag in Hwrite. change (u64 0) with 0 in Hwrite.
  rewrite Z.sub_0_r, (u64_small (RingBuffer.size_ rb)) in Hwrite by lia.
  destruct (Z.ltb_spec (RingBuffer.size_ rb) (RingBuffer.total_size len))
    as [|Hfit]; [discriminate|].
  injection Hwrite as <-.
  unfold MessageHeader.sizeof.
  rewrite (u64_small (w + 32)), (u64_small (w + _)) by lia.
  unfold RingBuffer.try_read.
  cbn [header ring SharedMemoryHeader.store_write_index
       SharedMemoryHeader.read_index SharedMemoryHeader.write_index].
  rewrite Hempty. fold w.
  destruct (Z.geb_spec w (w + RingBuffer.total_size len)); [lia|].
  unfold MessageHeader.sizeof.
  rewrite (header_read_back rb Hsize Hpow Hmask)
    by (rewrite ?length_to_bytes; fold len; lia).
  rewrite of_bytes_to_bytes_magic, of_bytes_to_bytes_size.
  cbn [MessageHeader.magic MessageHeader.size].
  change (u32 MessageHeader.MAGIC =? MessageHeader.MAGIC) with true.
  cbn [negb].
  assert (Hidem : u32 (u32 len) = u32 len)
    by (unfold u32; apply Z.mod_mod; lia).
  rewrite Hidem.
  destruct (Z.gtb_spec (u32 len) (Z.of_nat (length buf))); [lia|].
  cbn [RingBuffer.ok RingBuffer.data_size RingBuffer.data].
  split; [reflexivity|]. split; [reflexivity|].
  rewrite (u64_small (w + 32)) by lia.
  apply (payload_read_back rb Hsize Hpow Hmask);
    rewrite ?length_write_bytes; fold len; lia.
Qed.

(** The reader always takes the oldest frame: after ["D"] is written behind
    the unread frame of [abc_region], the next read delivers ["ABC"]. *)
Lemma read_takes_oldest_frame :
  let shm1 := snd (RingBuffer.try_write small_ring [x44] 1 0 abc_region) in
  let rd := RingBuffer.try_read small_ring (replicate 4 x00) 4 shm1 in
  fst (RingBuffer.try_write small_ring [x44] 1 0 abc_region) = true /\
  RingBuffer.ok rd = true /\
  RingBuffer.data_size rd = 3 /\
  RingBuffer.data rd = [x41; x42; x43; x00].
Proof. vm_compute. repeat split. Qed.

(** C1, amended: on an empty channel ([read_index = write_index]) whose ring
    object was built for the ring's bytes, for every payload [P] shorter
    than [2 ^ 32] bytes and every starting [write_index] for which
    [write_index] plus the frame size stays below [2 ^ 64] (positions where
    the frame straddles the physical end of the ring included), a
    successful [try_write] of [P] followed by a [try_read] into a buffer of
    at least [P]'s length delivers [P] byte for byte and reports [P]'s
    length. *)
Theorem C1_round_trip (rb : RingBuffer.t) (P : list byte) now shm
    (buf : list byte) :
  0 < RingBuffer.size_ rb < 2 ^ 64 ->
  is_power_of_two (RingBuffer.size_ rb) = true ->
  RingBuffer.mask_ rb = u64 (RingBuffer.size_ rb - 1) ->
  Z.of_nat (length (ring shm)) = RingBuffer.size_ rb ->
  SharedMemoryHeader.read_index (header shm)
    = SharedMemoryHeader.write_index (header shm) ->
  0 <= SharedMemoryHeader.write_index (header shm) ->
  SharedMemoryHeader.write_index (header shm)
    + RingBuffer.total_size (Z.of_nat (length P)) < 2 ^ 64 ->
  Z.of_nat (length P) < 2 ^ 32 ->
  (length P <= length buf)%nat ->
  round_trips rb P now shm buf.
Proof.
  intros Hsize Hpow Hmask Hring Hempty Hw0 Hnowrap Hlen Hbuf shm' Hwrite.
  assert (Hu : u32 (Z.of_nat (length P)) = Z.of_nat (length P))
    by (apply u32_small; lia).
  destruct (write_then_read rb P now shm buf shm') as (Hok & Hsz & Hdata);
    try assumption; try lia.
  rewrite Hu in *. rewrite Nat2Z.id in Hdata.
  rewrite firstn_all in Hdata.
  split; [assumption|]. split; assumption.
Qed.

Lemma C1_round_trip_witness :
  round_trips small_ring [x41; x42; x43] 0 straddle_region (replicate 8 x00).
Proof.
  apply (C1_round_trip small_ring [x41; x42; x43] 0 straddle_region
           (replicate 8 x00)).
  - vm_compute. split; reflexivity.
  - reflexivity.
  - reflexivity.
  - reflexivity.
  - reflexivity.
  - vm_compute. discriminate.
  - reflexivity.
  - reflexivity.
  - cbn. lia.
Defined.

(* ===================================================================== *)
(** * Further properties of the code *)

(** ** Alignment helpers *)

Lemma not64_mask k : 0 <= k < 64 -> not64 (u64 (2 ^ k - 1)) = 2 ^ 64 - 2 ^ k.
Proof.
  intros Hk.
  assert (Hpos : 0 < 2 ^ k) by (apply Z.pow_pos_nonneg; lia).
  assert (Hle : 2 ^ k <= 2 ^ 63) by (apply Z.pow_le_mono_r; lia).
  rewrite u64_small by lia. unfold not64, u64.
  replace (Z.lnot (2 ^ k - 1)) with (- 2 ^ k) by (unfold Z.lnot; lia).
  rewrite <- (Z_mod_plus_full (- 2 ^ k) 1 (2 ^ 64)).
  replace (- 2 ^ k + 1 * 2 ^ 64) with (2 ^ 64 - 2 ^ k) by lia.
  apply Z.mod_small. lia.
Qed.

(** Clearing the low [k] bits rounds down to a multiple of [2 ^ k]. *)
Lemma land_clear_low k a :
  0 <= k < 64 -> 0 <= a < 2 ^ 64 ->
  Z.land a (2 ^ 64 - 2 ^ k) = 2 ^ k * (a / 2 ^ k).
Proof.
  intros Hk Ha.
  replace (2 ^ 64 - 2 ^ k) with (Z.shiftl (Z.ones (64 - k)) k).
  2:{ rewrite Z.shiftl_mul_pow2, Z.ones_equiv by lia.
      replace (2 ^ 64) with (2 ^ (64 - k) * 2 ^ k)
        by (rewrite <- Z.pow_add_r by lia; f_equal; lia).
      lia. }
  replace (2 ^ k * (a / 2 ^ k)) with (Z.shiftl (Z.shiftr a k) k).
  2:{ rewrite Z.shiftl_mul_pow2, Z.shiftr_div_pow2 by lia. lia. }
  apply Z.bits_inj'. intros i Hi.
  rewrite Z.land_spec, !Z.shiftl_spec by lia.
  destruct (Z.ltb_spec i k) as [Hlt|Hge].
  - rewrite !(Z.testbit_neg_r _ (i - k)) by lia. apply andb_false_r.
  - rewrite Z.shiftr_spec by lia. replace (i - k + k) with i by lia.
    destruct (Z.ltb_spec i 64) as [Hlt64|Hge64].
    + rewrite Z.ones_spec_low by lia. apply andb_true_r.
    + rewrite (testbit_above a 64) by lia. reflexivity.
Qed.

Lemma align_up_pow2 k v :
  0 <= k < 64 -> 0 <= v -> v + 2 ^ k - 1 < 2 ^ 64 ->
  align_up v (2 ^ k) = 2 ^ k * ((v + 2 ^ k - 1) / 2 ^ k).
Proof.
  intros Hk Hv Hlt.
  assert (Hpos : 0 < 2 ^ k) by (apply Z.pow_pos_nonneg; lia).
  unfold align_up. rewrite not64_mask by assumption.
  rewrite u64_small by lia. apply land_clear_low; lia.
Qed.

Lemma align_down_pow2 k v :
  0 <= k < 64 -> 0 <= v < 2 ^ 64 ->
  align_down v (2 ^ k) = 2 ^ k * (v / 2 ^ k).
Proof.
  intros Hk Hv. unfold align_down. rewrite not64_mask by assumption.
  apply land_clear_low; assumption.
Qed.

Lemma is_aligned_pow2 k v :
  0 <= k < 64 -> 0 <= v ->
  is_aligned v (2 ^ k) = (v mod 2 ^ k =? 0).
Proof.
  intros Hk Hv.
  assert (Hpos : 0 < 2 ^ k) by (apply Z.pow_pos_nonneg; lia).
  assert (Hle : 2 ^ k <= 2 ^ 63) by (apply Z.pow_le_mono_r; lia).
  unfold is_aligned. rewrite u64_small by lia.
  replace (2 ^ k - 1) with (Z.ones k) by (rewrite Z.ones_equiv; lia).
  rewrite Z.land_ones by lia. reflexivity.
Qed.

(** X1: for an alignment that is a power of two, [align_up] returns the
    least multiple of the alignment that is not below the value, as long as
    the intermediate sum does not overflow [size_t]. *)
Theorem align_up_least_multiple (k v : Z) :
  0 <= k < 64 -> 0 <= v -> v + 2 ^ k - 1 < 2 ^ 64 ->
  align_up v (2 ^ k) mod 2 ^ k = 0 /\
  v <= align_up v (2 ^ k) < v + 2 ^ k /\
  (forall m, m mod 2 ^ k = 0 -> v <= m -> align_up v (2 ^ k) <= m).
Proof.
  intros Hk Hv Hlt.
  assert (Hpos : 0 < 2 ^ k) by (apply Z.pow_pos_nonneg; lia).
  rewrite align_up_pow2 by assumption.
  set (a := 2 ^ k) in *.
  pose proof (Z.div_mod (v + a - 1) a ltac:(lia)) as Hdm.
  pose proof (Z.mod_pos_bound (v + a - 1) a Hpos) as Hm.
  split; [rewrite Z.mul_comm; apply Z_mod_mult|].
  split; [lia|].
  intros m Hmul Hvm.
  apply Z.mod_divide in Hmul; [|lia]. destruct Hmul as [q ->].
  assert (Hq : (v + a - 1) / a < q + 1).
  { apply Z.div_lt_upper_bound; [assumption|]. nia. }
  nia.
Qed.

Lemma align_up_least_multiple_witness :
  align_up 13 (2 ^ 3) mod 2 ^ 3 = 0 /\
  13 <= align_up 13 (2 ^ 3) < 13 + 2 ^ 3 /\
  (forall m, m mod 2 ^ 3 = 0 -> 13 <= m -> align_up 13 (2 ^ 3) <= m).
Proof.
  apply (align_up_least_multiple 3 13).
  - lia.
  - lia.
  - reflexivity.
Defined.

(** X2: for an alignment that is a power of two, [is_aligned] holds exactly
    for the multiples of the alignment, and these are exactly the values
    that [align_down] and [align_up] return unchanged; [align_down] is the
    greatest multiple not above the value. *)
Theorem is_aligned_iff_fixed_point (k v : Z) :
  0 <= k < 64 -> 0 <= v -> v + 2 ^ k - 1 < 2 ^ 64 ->
  (is_aligned v (2 ^ k) = true <-> v mod 2 ^ k = 0) /\
  (is_aligned v (2 ^ k) = true <-> align_down v (2 ^ k) = v) /\
  (is_aligned v (2 ^ k) = true <-> align_up v (2 ^ k) = v) /\
  align_down v (2 ^ k) mod 2 ^ k = 0 /\
  v - 2 ^ k < align_down v (2 ^ k) <= v.
Proof.
  intros Hk Hv Hlt.
  assert (Hpos : 0 < 2 ^ k) by (apply Z.pow_pos_nonneg; lia).
  rewrite is_aligned_pow2, align_down_pow2, align_up_pow2 by lia.
  set (a := 2 ^ k) in *.
  pose proof (Z.div_mod v a ltac:(lia)) as Hdm.
  pose proof (Z.mod_pos_bound v a Hpos) as Hm.
  pose proof (Z.div_mod (v + a - 1) a ltac:(lia)) as Hdm'.
  pose proof (Z.mod_pos_bound (v + a - 1) a Hpos) as Hm'.
  rewrite Z.eqb_eq.
  split; [reflexivity|]. split; [lia|]. split.
  - split.
    + intros H0.
      assert (Hq : (v + a - 1) / a = v / a).
      { symmetry. apply (Z.div_unique _ _ _ (a - 1)); lia. }
      rewrite Hq. lia.
    + intros Heq. rewrite <- Heq.
      rewrite Z.mul_comm. apply Z_mod_mult.
  - split; [rewrite Z.mul_comm; apply Z_mod_mult|lia].
Qed.

Lemma is_aligned_iff_fixed_point_witness :
  (is_aligned 128 (2 ^ 6) = true <-> 128 mod 2 ^ 6 = 0) /\
  (is_aligned 128 (2 ^ 6) = true <-> align_down 128 (2 ^ 6) = 128) /\
  (is_aligned 128 (2 ^ 6) = true <-> align_up 128 (2 ^ 6) = 128) /\
  align_down 128 (2 ^ 6) mod 2 ^ 6 = 0 /\
  128 - 2 ^ 6 < align_down 128 (2 ^ 6) <= 128.
Proof.
  apply (is_aligned_iff_fixed_point 6 128).
  - lia.
  - lia.
  - reflexivity.
Defined.

(** X3: a value within seven of the largest [size_t] makes the sum inside
    [align_up] wrap, so [align_up] returns 0 and the frame size
    [try_write] computes for such a [data_size] is the bare 32 bytes of the
    header. *)
Theorem align_up_wraps_to_zero (v : Z) :
  2 ^ 64 - 8 < v < 2 ^ 64 ->
  align_up v 8 = 0 /\ RingBuffer.total_size v = 32.
Proof.
  intros Hv.
  assert (H0 : align_up v 8 = 0).
  { unfold align_up. change 8 with (2 ^ 3) at 2.
    rewrite not64_mask by lia.
    assert (Hu : u64 (v + 8 - 1) = v + 7 - 2 ^ 64).
    { unfold u64. rewrite <- (Z_mod_plus_full (v + 8 - 1) (-1) (2 ^ 64)).
      replace (v + 8 - 1 + -1 * 2 ^ 64) with (v + 7 - 2 ^ 64) by lia.
      apply Z.mod_small. lia. }
    rewrite Hu, land_clear_low by lia.
    rewrite Z.div_small by lia. reflexivity. }
  split; [assumption|].
  unfold RingBuffer.total_size. rewrite H0. reflexivity.
Qed.

Lemma align_up_wraps_to_zero_witness :
  align_up (2 ^ 64 - 1) 8 = 0 /\ RingBuffer.total_size (2 ^ 64 - 1) = 32.
Proof. apply (align_up_wraps_to_zero (2 ^ 64 - 1)). lia. Defined.

Lemma is_power_of_two_pow2 k : 0 <= k < 64 -> is_power_of_two (2 ^ k) = true.
Proof.
  intros Hk.
  assert (Hpos : 0 < 2 ^ k) by (apply Z.pow_pos_nonneg; lia).
  assert (Hle : 2 ^ k <= 2 ^ 63) by (apply Z.pow_le_mono_r; lia).
  unfold is_power_of_two. rewrite u64_small by lia.
  replace (2 ^ k - 1) with (Z.ones k) by (rewrite Z.ones_equiv; lia).
  rewrite Z.land_ones, Z_mod_same_full by lia.
  destruct (Z.eqb_spec (2 ^ k) 0); [lia|reflexivity].
Qed.

Lemma pow2_exponent s :
  0 < s < 2 ^ 64 -> is_power_of_two s = true ->
  exists k, 0 <= k < 64 /\ s = 2 ^ k.
Proof.
  intros Hs H.
  destruct (is_power_of_two_spec s Hs H) as (k & Hk & ->).
  exists k. split; [|reflexivity].
  split; [assumption|]. apply (Z.pow_lt_mono_r_iff 2); lia.
Qed.

(** X4: on [size_t] values [is_power_of_two] holds exactly for the powers
    of two [2 ^ 0] to [2 ^ 63]; zero is refused. *)
Theorem is_power_of_two_iff (s : Z) :
  0 <= s < 2 ^ 64 ->
  (is_power_of_two s = true <-> exists k, 0 <= k < 64 /\ s = 2 ^ k).
Proof.
  intros Hs. split.
  - intros H.
    assert (s <> 0).
    { intros ->. discriminate H. }
    apply pow2_exponent; [lia|assumption].
  - intros (k & Hk & ->). apply is_power_of_two_pow2. assumption.
Qed.

Lemma is_power_of_two_iff_witness :
  is_power_of_two 4096 = true <-> exists k, 0 <= k < 64 /\ 4096 = 2 ^ k.
Proof. apply (is_power_of_two_iff 4096). lia. Defined.

(* ===================================================================== *)
(** ** The configuration validator *)

(** X5: [is_valid] accepts exactly the configurations whose ring size is a
    power of two from [2 ^ 12] to [2 ^ 63] and whose [max_message_size] is
    at least 64 and below half the ring size; the other fields play no
    part. *)
Theorem is_valid_iff (c : ChannelConfig.t) :
  0 <= ChannelConfig.ring_buffer_size c < 2 ^ 64 ->
  (ChannelConfig.is_valid c = true <->
   (exists k, 12 <= k < 64 /\ ChannelConfig.ring_buffer_size c = 2 ^ k) /\
   64 <= ChannelConfig.max_message_size c
      < ChannelConfig.ring_buffer_size c / 2).
Proof.
  intros Hr. split.
  - intros Hv. destruct (is_valid_inv c Hv) as (Hp & Hmax & Hring & Hmin).
    split; [|lia].
    destruct (pow2_exponent (ChannelConfig.ring_buffer_size c))
      as (k & Hk & Hpk); [lia|assumption|].
    exists k. split; [|assumption]. split; [|lia].
    destruct (Z.le_gt_cases 12 k) as [|Hlt]; [assumption|exfalso].
    assert (2 ^ k < 2 ^ 12) by (apply Z.pow_lt_mono_r; lia).
    change (2 ^ 12) with 4096 in *. lia.
  - intros ((k & Hk & Hpk) & Hmax).
    assert (Hge : 2 ^ 12 <= 2 ^ k) by (apply Z.pow_le_mono_r; lia).
    change (2 ^ 12) with 4096 in Hge.
    unfold ChannelConfig.is_valid.
    rewrite Hpk in *. rewrite is_power_of_two_pow2 by lia. cbn [negb].
    destruct (Z.geb_spec (ChannelConfig.max_message_size c) (2 ^ k / 2));
      [lia|].
    destruct (Z.ltb_spec (2 ^ k) 4096); [lia|].
    destruct (Z.ltb_spec (ChannelConfig.max_message_size c) 64); [lia|].
    reflexivity.
Qed.

Lemma is_valid_iff_witness :
  ChannelConfig.is_valid small_config = true <->
  (exists k, 12 <= k < 64 /\ ChannelConfig.ring_buffer_size small_config = 2 ^ k)
  /\ 64 <= ChannelConfig.max_message_size small_config
        < ChannelConfig.ring_buffer_size small_config / 2.
Proof. apply (is_valid_iff small_config). cbn. lia. Defined.

(* ===================================================================== *)
(** ** Packing and unpacking the version *)

Lemma header_version_minor (M m p : Z) h ring_size flags pid :
  0 <= M < 2 ^ 16 -> 0 <= m < 2 ^ 8 -> 0 <= p < 2 ^ 8 ->
  Version.minor
    (Handshake.header_version
       (Handshake.initialize_header_at (Version.mk M m p) h ring_size flags
          pid)) = m.
Proof.
  intros HM Hm Hp. unfold Handshake.header_version. cbn.
  unfold Version.as_uint32. cbn.
  rewrite !Z.shiftl_mul_pow2 by lia.
  rewrite (u32_small M), (u32_small m), (u32_small p) by lia.
  rewrite !(u32_small (_ * _)) by lia.
  rewrite !Z.shiftr_lor.
  rewrite !Z.shiftr_div_pow2 by lia.
  replace (M * 2 ^ 16) with (M * 2 ^ 8 * 2 ^ 8) by lia.
  rewrite !Z.div_mul by lia.
  rewrite (Z.div_small p) by lia.
  rewrite Z.lor_0_r.
  change 255 with (Z.ones 8). rewrite Z.land_lor_distr_l.
  rewrite !Z.land_ones by lia.
  rewrite Z_mod_mult, (Z.mod_small m) by lia.
  rewrite Z.lor_0_l. apply Z.mod_small. lia.
Qed.

Lemma header_version_patch (M m p : Z) h ring_size flags pid :
  0 <= M < 2 ^ 16 -> 0 <= m < 2 ^ 8 -> 0 <= p < 2 ^ 8 ->
  Version.patch
    (Handshake.header_version
       (Handshake.initialize_header_at (Version.mk M m p) h ring_size flags
          pid)) = p.
Proof.
  intros HM Hm Hp. unfold Handshake.header_version. cbn.
  unfold Version.as_uint32. cbn.
  rewrite !Z.shiftl_mul_pow2 by lia.
  rewrite (u32_small M), (u32_small m), (u32_small p) by lia.
  rewrite !(u32_small (_ * _)) by lia.
  replace (M * 2 ^ 16) with (M * 2 ^ 8 * 2 ^ 8) by lia.
  change 255 with (Z.ones 8). rewrite !Z.land_lor_distr_l.
  rewrite !Z.land_ones by lia.
  rewrite !Z_mod_mult, (Z.mod_small p) by lia.
  cbn [Z.lor]. apply Z.mod_small. lia.
Qed.

(** X6: a version whose minor and patch are below 256 survives the trip
    through the packed header field: what [validate_header] rebuilds from
    the field written by [initialize_header] is the version that was
    packed. *)
Theorem version_pack_unpack (M m p : Z) h ring_size flags pid :
  0 <= M < 2 ^ 16 -> 0 <= m < 2 ^ 8 -> 0 <= p < 2 ^ 8 ->
  Handshake.header_version
    (Handshake.initialize_header_at (Version.mk M m p) h ring_size flags pid)
  = Version.mk M m p.
Proof.
  intros HM Hm Hp.
  pose proof (header_version_major M m p h ring_size flags pid HM Hm
                ltac:(lia)) as H1.
  pose proof (header_version_minor M m p h ring_size flags pid HM Hm Hp)
    as H2.
  pose proof (header_version_patch M m p h ring_size flags pid HM Hm Hp)
    as H3.
  destruct (Handshake.header_version _) as [a b c]. cbn in H1, H2, H3.
  subst. reflexivity.
Qed.

Lemma version_pack_unpack_witness :
  Handshake.header_version
    (Handshake.initialize_header_at (Version.mk 1 2 3)
       SharedMemoryHeader.zeroed 4096 0 7)
  = Version.mk 1 2 3.
Proof.
  apply (version_pack_unpack 1 2 3 SharedMemoryHeader.zeroed 4096 0 7); lia.
Defined.

(** X7: [validate_header] reads only bits 16 and up of the version field:
    two headers with the same magic and ring size whose version fields
    agree above the low 16 bits get the same verdict, so what the field
    carries as minor and patch never decides an attach. *)
Theorem version_gate_ignores_low_bits (h1 h2 : SharedMemoryHeader.t) :
  SharedMemoryHeader.magic h1 = SharedMemoryHeader.magic h2 ->
  SharedMemoryHeader.ring_buffer_size h1
    = SharedMemoryHeader.ring_buffer_size h2 ->
  SharedMemoryHeader.version h1 / 2 ^ 16
    = SharedMemoryHeader.version h2 / 2 ^ 16 ->
  Handshake.validate_header h1 = Handshake.validate_header h2.
Proof.
  intros Hm Hr Hv.
  unfold Handshake.validate_header, Handshake.validate_header_at.
  unfold Version.is_compatible_with, Handshake.header_version.
  cbn [Version.major].
  rewrite !Z.shiftr_div_pow2 by lia.
  rewrite Hm, Hr, Hv. reflexivity.
Qed.

Lemma version_gate_ignores_low_bits_witness :
  Handshake.validate_header
    (Handshake.initialize_header_at (Version.mk 1 0 0)
       SharedMemoryHeader.zeroed 4096 0 7)
  = Handshake.validate_header
      (Handshake.initialize_header_at (Version.mk 1 200 99)
         SharedMemoryHeader.zeroed 4096 0 7).
Proof.
  apply version_gate_ignores_low_bits; reflexivity.
Defined.

(* ===================================================================== *)
(** ** Handshake and attach *)

(** X8: [receiver_handshake] succeeds exactly on the headers
    [validate_header] accepts; it then stores the caller's pid in
    [receiver_pid], changes no other field, and the header still passes
    both [validate_header] and [sender_handshake].  When it fails the
    header is left as it was, and a wrong magic is reported as
    [ChannelNotFound]. *)
Theorem receiver_handshake_effect (h : SharedMemoryHeader.t) (pid : Z) :
  (Handshake.validate_header h = Ok tt ->
   Handshake.receiver_handshake h pid
     = (Ok tt, SharedMemoryHeader.set_receiver_pid (u32 pid) h) /\
   Handshake.validate_header (snd (Handshake.receiver_handshake h pid))
     = Ok tt /\
   Handshake.sender_handshake (snd (Handshake.receiver_handshake h pid))
     = Ok tt) /\
  (Handshake.validate_header h <> Ok tt ->
   is_error (fst (Handshake.receiver_handshake h pid)) = true /\
   snd (Handshake.receiver_handshake h pid) = h) /\
  (SharedMemoryHeader.magic h <> SharedMemoryHeader.MAGIC ->
   Handshake.receiver_handshake h pid = (Err ChannelNotFound, h)).
Proof.
  unfold Handshake.receiver_handshake.
  destruct (Z.eqb_spec (SharedMemoryHeader.magic h) SharedMemoryHeader.MAGIC)
    as [Hm|Hm]; cbn [negb].
  - split; [|split; [|contradiction]].
    + intros Hv. rewrite Hv. cbn [is_error is_ok error negb fst snd].
      split; [reflexivity|]. split; [exact Hv|].
      unfold Handshake.sender_handshake.
      cbn [SharedMemoryHeader.set_receiver_pid SharedMemoryHeader.magic].
      rewrite Hm, Z.eqb_refl. exact Hv.
    + intros Hv. unfold Handshake.validate_header,
        Handshake.validate_header_at in *.
      rewrite Hm, Z.eqb_refl in *. cbn [negb] in *.
      destruct (negb (Version.is_compatible_with _ _)); [split; reflexivity|].
      destruct (_ || _); [split; reflexivity|contradiction].
  - split; [|split; [|reflexivity]].
    + intros Hv. unfold Handshake.validate_header,
        Handshake.validate_header_at in Hv.
      apply Z.eqb_neq in Hm. rewrite Hm in Hv. discriminate.
    + intros _. split; reflexivity.
Qed.

(** On a region whose header already carries the sentinel, [Channel::open]
    writes nothing and answers with the verdict of [validate_header]. *)
Lemma open_initialized name config (platform : Platform) pid memory :
  ChannelConfig.is_valid config = true ->
  (forall size, platform name size true = Ok memory) ->
  SharedMemoryHeader.magic (header memory) = SharedMemoryHeader.MAGIC ->
  Channel.open name config platform pid =
    (match Handshake.validate_header (header memory) with
     | Ok _ =>
         Ok (Channel.make name config
               (u64 (align_up SharedMemoryHeader.sizeof CACHE_LINE_SIZE
                     + ChannelConfig.ring_buffer_size config)))
     | Err e => Err e
     end,
     Some memory).
Proof.
  intros Hv Hplat Hmagic. unfold Channel.open.
  rewrite Hv, Hplat. cbn [negb].
  rewrite Hmagic, Z.eqb_refl. cbn [negb].
  unfold Handshake.sender_handshake. rewrite Hmagic, Z.eqb_refl.
  destruct (Handshake.validate_header (header memory)); reflexivity.
Qed.

(** What a successful [Channel::open] tells: the configuration was valid,
    a region was mapped, and its header now passes [validate_header]. *)
Lemma open_ok_inv name config (platform : Platform) pid c m :
  Channel.open name config platform pid = (Ok c, m) ->
  ChannelConfig.is_valid config = true /\
  c = Channel.make name config
        (u64 (align_up SharedMemoryHeader.sizeof CACHE_LINE_SIZE
              + ChannelConfig.ring_buffer_size config)) /\
  exists memory,
    m = Some memory /\
    SharedMemoryHeader.magic (header memory) = SharedMemoryHeader.MAGIC /\
    Handshake.validate_header (header memory) = Ok tt.
Proof.
  unfold Channel.open. intros H.
  destruct (ChannelConfig.is_valid config) eqn:Hv; cbn [negb] in H;
    [|discriminate].
  split; [reflexivity|].
  destruct (platform name _ true) as [memory|e]; [|discriminate].
  destruct (Z.eqb_spec (SharedMemoryHeader.magic (header memory))
              SharedMemoryHeader.MAGIC) as [Hm|Hm]; cbn [negb] in H.
  - destruct (Handshake.validate_header (header memory)) as [[]|e] eqn:Hval;
      [|discriminate].
    destruct (Handshake.sender_handshake (header memory)); [|discriminate].
    injection H as <- <-. split; [reflexivity|].
    exists memory. repeat split; assumption.
  - destruct (is_valid_inv config Hv) as (Hp & _).
    cbn [header] in H.
    destruct (Handshake.sender_handshake _); [|discriminate].
    injection H as <- <-. split; [reflexivity|].
    eexists. split; [reflexivity|]. cbn [header].
    split; [reflexivity|]. apply validate_initialized. assumption.
Qed.

(** X9: whenever [Channel::open] succeeds, the configuration passed
    [is_valid], the channel it returns is open with a ring buffer sized by
    the configuration, and the mapped region is left with a header that
    carries the sentinel and passes [validate_header]. *)
Theorem open_leaves_valid_header name config (platform : Platform) pid c m :
  Channel.open name config platform pid = (Ok c, m) ->
  ChannelConfig.is_valid config = true /\
  Channel.is_open c = true /\
  Channel.ring_buffer c
    = RingBuffer.make (ChannelConfig.ring_buffer_size config) /\
  exists memory,
    m = Some memory /\
    SharedMemoryHeader.magic (header memory) = SharedMemoryHeader.MAGIC /\
    Handshake.validate_header (header memory) = Ok tt.
Proof.
  intros H. destruct (open_ok_inv _ _ _ _ _ _ H) as (Hv & -> & Hm).
  split; [assumption|]. split; [reflexivity|]. split; [reflexivity|].
  assumption.
Qed.

Lemma open_leaves_valid_header_witness :
  ChannelConfig.is_valid small_config = true /\
  Channel.is_open small_channel = true /\
  Channel.ring_buffer small_channel
    = RingBuffer.make (ChannelConfig.ring_buffer_size small_config) /\
  exists memory,
    Some {| header := header_at 0 0; ring := replicate 4096 x00 |}
      = Some memory /\
    SharedMemoryHeader.magic (header memory) = SharedMemoryHeader.MAGIC /\
    Handshake.validate_header (header memory) = Ok tt.
Proof.
  apply (open_leaves_valid_header "demo" small_config zero_platform 1).
  reflexivity.
Defined.

(** X10: on a region whose header already carries the sentinel,
    [Channel::open] never writes: indices, ring bytes and every header
    field stay as they are.  Its answer is the verdict of
    [validate_header]: success for a compatible version and a power-of-two
    ring size, [VersionMismatch] or [InvalidMemoryLayout] otherwise.  The
    ring size recorded in the header is not compared with the
    configuration's: the channel's ring buffer is sized by the
    configuration alone. *)
Theorem open_keeps_initialized_region name config (platform : Platform) pid
    memory :
  ChannelConfig.is_valid config = true ->
  (forall size, platform name size true = Ok memory) ->
  SharedMemoryHeader.magic (header memory) = SharedMemoryHeader.MAGIC ->
  snd (Channel.open name config platform pid) = Some memory /\
  error (fst (Channel.open name config platform pid))
    = error (Handshake.validate_header (header memory)) /\
  (Handshake.validate_header (header memory) = Ok tt ->
   exists c,
     fst (Channel.open name config platform pid) = Ok c /\
     Channel.is_open c = true /\
     RingBuffer.size_ (Channel.ring_buffer c)
       = ChannelConfig.ring_buffer_size config).
Proof.
  intros Hv Hplat Hmagic.
  rewrite (open_initialized name config platform pid memory Hv Hplat Hmagic).
  cbn [fst snd]. split; [reflexivity|]. split.
  - destruct (Handshake.validate_header (header memory)); reflexivity.
  - intros Hval. rewrite Hval. eexists. repeat split.
Qed.

Lemma open_keeps_initialized_region_witness :
  snd (Channel.open "demo" small_config (fun _ _ _ => Ok abc_region) 9)
    = Some abc_region /\
  error (fst (Channel.open "demo" small_config (fun _ _ _ => Ok abc_region)
                9))
    = error (Handshake.validate_header (header abc_region)) /\
  (Handshake.validate_header (header abc_region) = Ok tt ->
   exists c,
     fst (Channel.open "demo" small_config (fun _ _ _ => Ok abc_region) 9)
       = Ok c /\
     Channel.is_open c = true /\
     RingBuffer.size_ (Channel.ring_buffer c)
       = ChannelConfig.ring_buffer_size small_config).
Proof.
  apply (open_keeps_initialized_region "demo" small_config
           (fun _ _ _ => Ok abc_region) 9 abc_region).
  - reflexivity.
  - intros size. reflexivity.
  - reflexivity.
Defined.

(** [open_initialized], with the platform fixed only at the size
    [Channel::open] asks for. *)
Lemma open_initialized_at name config (platform : Platform) pid memory :
  ChannelConfig.is_valid config = true ->
  platform name
    (u64 (align_up SharedMemoryHeader.sizeof CACHE_LINE_SIZE
          + ChannelConfig.ring_buffer_size config)) true = Ok memory ->
  SharedMemoryHeader.magic (header memory) = SharedMemoryHeader.MAGIC ->
  Handshake.validate_header (header memory) = Ok tt ->
  Channel.open name config platform pid =
    (Ok (Channel.make name config
           (u64 (align_up SharedMemoryHeader.sizeof CACHE_LINE_SIZE
                 + ChannelConfig.ring_buffer_size config))),
     Some memory).
Proof.
  intros Hv Hplat Hmagic Hval. unfold Channel.open.
  rewrite Hv. cbn [negb]. rewrite Hplat.
  rewrite Hmagic, Z.eqb_refl. cbn [negb].
  unfold Handshake.sender_handshake. rewrite Hmagic, Z.eqb_refl.
  rewrite Hval. reflexivity.
Qed.

(** X11: attaching twice with the same ring size is harmless.  After one
    [Channel::open] has succeeded on a region, a second one whose
    configuration is accepted and has the same [ring_buffer_size], so that
    it asks the platform for a mapping of the same size, and which is shown
    the region as the first one left it, succeeds as well and leaves the
    region exactly as it was, whatever its pid, flags and
    [max_message_size] are. *)
Theorem reopen_is_noop name1 config1 (platform1 : Platform) pid1 c1 memory1
    name2 config2 (platform2 : Platform) pid2 :
  Channel.open name1 config1 platform1 pid1 = (Ok c1, Some memory1) ->
  ChannelConfig.is_valid config2 = true ->
  ChannelConfig.ring_buffer_size config2
    = ChannelConfig.ring_buffer_size config1 ->
  platform2 name2
    (u64 (align_up SharedMemoryHeader.sizeof CACHE_LINE_SIZE
          + ChannelConfig.ring_buffer_size config1)) true = Ok memory1 ->
  exists c2,
    Channel.open name2 config2 platform2 pid2 = (Ok c2, Some memory1) /\
    Channel.is_open c2 = true /\
    Channel.total_size_ c2 = Channel.total_size_ c1.
Proof.
  intros H1 Hv2 Hring Hplat2.
  destruct (open_ok_inv _ _ _ _ _ _ H1)
    as (_ & Hc1 & memory & Hm & Hmagic & Hval).
  injection Hm as <-. rewrite <- Hring in Hplat2.
  rewrite (open_initialized_at name2 config2 platform2 pid2 memory1 Hv2
             Hplat2 Hmagic Hval).
  eexists. split; [reflexivity|]. split; [reflexivity|].
  rewrite Hc1. cbn [Channel.make Channel.total_size_]. rewrite Hring.
  reflexivity.
Qed.

Lemma reopen_is_noop_witness :
  exists c2,
    Channel.open "demo" c9_config
      (fun _ size _ =>
         if size =? 4224 then
           Ok {| header := header_at 0 0; ring := replicate 4096 x00 |}
         else Err MappingFailed) 2
      = (Ok c2, Some {| header := header_at 0 0;
                        ring := replicate 4096 x00 |}) /\
    Channel.is_open c2 = true /\
    Channel.total_size_ c2 = Channel.total_size_ small_channel.
Proof.
  apply (reopen_is_noop "demo" small_config zero_platform 1 small_channel
           {| header := header_at 0 0; ring := replicate 4096 x00 |}
           "demo" c9_config
           (fun _ size _ =>
              if size =? 4224 then
                Ok {| header := header_at 0 0; ring := replicate 4096 x00 |}
              else Err MappingFailed) 2).
  - reflexivity.
  - reflexivity.
  - reflexivity.
  - reflexivity.
Defined.

(* ===================================================================== *)
(** ** The header struct in memory *)

(** Slicing a 32-byte image at the offsets of the six fields. *)
Lemma struct_fields (a b c d e f : list byte) :
  length a = 4%nat -> length b = 4%nat -> length c = 8%nat ->
  length d = 8%nat -> length e = 4%nat -> length f = 4%nat ->
  take 4 (a ++ b ++ c ++ d ++ e ++ f) = a /\
  take 4 (drop 4 (a ++ b ++ c ++ d ++ e ++ f)) = b /\
  take 8 (drop 8 (a ++ b ++ c ++ d ++ e ++ f)) = c /\
  take 8 (drop 16 (a ++ b ++ c ++ d ++ e ++ f)) = d /\
  take 4 (drop 24 (a ++ b ++ c ++ d ++ e ++ f)) = e /\
  take 4 (drop 28 (a ++ b ++ c ++ d ++ e ++ f)) = f.
Proof.
  intros Ha Hb Hc Hd He Hf.
  repeat split.
  - by rewrite take_app_length'.
  - rewrite drop_app_length' by done. by rewrite take_app_length'.
  - rewrite (drop_app_add' a _ 4 4) by done.
    rewrite drop_app_length' by done. by rewrite take_app_length'.
  - rewrite (drop_app_add' a _ 4 12) by done.
    rewrite (drop_app_add' b _ 4 8) by done.
    rewrite drop_app_length' by done. by rewrite take_app_length'.
  - rewrite (drop_app_add' a _ 4 20) by done.
    rewrite (drop_app_add' b _ 4 16) by done.
    rewrite (drop_app_add' c _ 8 8) by done.
    rewrite drop_app_length' by done. by rewrite take_app_length'.
  - rewrite (drop_app_add' a _ 4 24) by done.
    rewrite (drop_app_add' b _ 4 20) by done.
    rewrite (drop_app_add' c _ 8 12) by done.
    rewrite (drop_app_add' d _ 8 4) by done.
    rewrite drop_app_length' by done. by rewrite take_ge by lia.
Qed.

(** The struct read back from its own memory image: every field comes back
    truncated to its width. *)
Lemma of_bytes_to_bytes h :
  MessageHeader.of_bytes (MessageHeader.to_bytes h)
  = {| MessageHeader.magic := u32 (MessageHeader.magic h);
       MessageHeader.size := u32 (MessageHeader.size h);
       MessageHeader.sequence := u64 (MessageHeader.sequence h);
       MessageHeader.timestamp := u64 (MessageHeader.timestamp h);
       MessageHeader.checksum := u32 (MessageHeader.checksum h);
       MessageHeader.reserved := u32 (MessageHeader.reserved h) |}.
Proof.
  unfold MessageHeader.of_bytes, MessageHeader.to_bytes.
  destruct (struct_fields
              (le_bytes 4 (MessageHeader.magic h))
              (le_bytes 4 (MessageHeader.size h))
              (le_bytes 8 (MessageHeader.sequence h))
              (le_bytes 8 (MessageHeader.timestamp h))
              (le_bytes 4 (MessageHeader.checksum h))
              (le_bytes 4 (MessageHeader.reserved h)))
    as (-> & -> & -> & -> & -> & ->); try apply length_le_bytes.
  rewrite !le_value_le_bytes. reflexivity.
Qed.

(* ===================================================================== *)
(** ** Frames in the ring *)

Section RingQueue.

Variable rb : RingBuffer.t.
Hypothesis Hsize : 0 < RingBuffer.size_ rb < 2 ^ 64.
Hypothesis Hpow : is_power_of_two (RingBuffer.size_ rb) = true.
Hypothesis Hmask : RingBuffer.mask_ rb = u64 (RingBuffer.size_ rb - 1).

Local Abbreviation S := (RingBuffer.size_ rb).

(** Reads see only the ring positions they cover. *)
Lemma read_bytes_ext buf1 buf2 dst n off :
  Z.of_nat (length buf1) = S ->
  Z.of_nat (length buf2) = S ->
  0 <= n <= S ->
  n <= Z.of_nat (length dst) ->
  0 <= off ->
  (forall j : nat, Z.of_nat j < n ->
     buf1 !! Z.to_nat ((off + Z.of_nat j) mod S)
       = buf2 !! Z.to_nat ((off + Z.of_nat j) mod S)) ->
  RingBuffer.read_bytes rb buf1 dst n off
    = RingBuffer.read_bytes rb buf2 dst n off.
Proof.
  intros H1 H2 Hn Hdst Hoff Hagree.
  apply list_eq. intros j.
  rewrite !(read_bytes_lookup rb Hsize Hpow Hmask) by assumption.
  destruct (Z.ltb_spec (Z.of_nat j) n); [|reflexivity].
  apply Hagree. assumption.
Qed.

(** The two writes of a frame at [w] touch no ring position that lies
    [32 + n] or more past [w]. *)
Lemma write_frame_untouched buf (hdr P : list byte) n w (i : nat) :
  Z.of_nat (length buf) = S ->
  length hdr = 32%nat ->
  0 <= n <= Z.of_nat (length P) ->
  32 + n <= S ->
  0 <= w ->
  Z.of_nat i < S ->
  32 + n <= (Z.of_nat i - w) mod S ->
  RingBuffer.write_bytes rb
    (RingBuffer.write_bytes rb buf hdr 32 w) P n (w + 32) !! i = buf !! i.
Proof.
  intros Hbuf Hhdr Hn Hfit Hw Hi Hfar.
  assert (Hd : 0 <= (Z.of_nat i - w) mod S < S)
    by (apply Z.mod_pos_bound; lia).
  rewrite (write_bytes_lookup rb Hsize Hpow Hmask);
    rewrite ?length_write_bytes; try lia.
  replace (Z.of_nat i - (w + 32)) with (Z.of_nat i - w - 32) by lia.
  rewrite <- Zminus_mod_idemp_l.
  rewrite (Z.mod_small (_ - 32)) by lia.
  destruct (Z.ltb_spec ((Z.of_nat i - w) mod S - 32) n); [lia|].
  rewrite (write_bytes_lookup rb Hsize Hpow Hmask) by lia.
  destruct (Z.ltb_spec ((Z.of_nat i - w) mod S) 32); [lia|reflexivity].
Qed.

Lemma total_size_ge len :
  0 <= len < 2 ^ 32 ->
  32 + len <= RingBuffer.total_size len < 2 ^ 33.
Proof.
  intros Hlen. rewrite total_size_exact by lia.
  Z.div_mod_to_equations. lia.
Qed.

Lemma frames_at_le bytes r ps w :
  frames_at rb bytes r ps w -> r <= w.
Proof.
  revert r. induction ps as [|p ps IH]; intros r H.
  - cbn in H. lia.
  - destruct H as (Hlen & _ & _ & _ & Hrest). apply IH in Hrest.
    pose proof (total_size_ge (Z.of_nat (length p)) ltac:(lia)). lia.
Qed.

(** Frames only depend on the ring positions between the two indices. *)
Lemma frames_at_ext bytes1 bytes2 r ps w :
  Z.of_nat (length bytes1) = S ->
  Z.of_nat (length bytes2) = S ->
  0 <= r ->
  w - r <= S ->
  (forall a, r <= a < w ->
     bytes1 !! Z.to_nat (a mod S) = bytes2 !! Z.to_nat (a mod S)) ->
  frames_at rb bytes1 r ps w -> frames_at rb bytes2 r ps w.
Proof.
  intros H1 H2. revert r.
  induction ps as [|p ps IH]; intros r Hr Hocc Hagree H; [exact H|].
  destruct H as (Hlen & Hmagic & Hsz & Hpay & Hrest).
  pose proof (total_size_ge (Z.of_nat (length p)) ltac:(lia)) as Htot.
  pose proof (frames_at_le _ _ _ _ Hrest) as Hle.
  assert (Hhdr : frame_header rb bytes2 r = frame_header rb bytes1 r).
  { unfold frame_header. f_equal. unfold MessageHeader.sizeof.
    apply read_bytes_ext; try assumption; try (cbn; lia).
    intros j Hj. symmetry. apply Hagree. lia. }
  cbn [frames_at]. rewrite Hhdr.
  split; [assumption|]. split; [assumption|]. split; [assumption|].
  split.
  - intros j Hj. rewrite <- Hagree by lia. apply Hpay. assumption.
  - apply IH; try assumption; try lia.
    intros a Ha. apply Hagree. lia.
Qed.

Lemma frames_at_app bytes r ps w p w' :
  frames_at rb bytes r ps w ->
  frames_at rb bytes w [p] w' ->
  frames_at rb bytes r (ps ++ [p]) w'.
Proof.
  revert r. induction ps as [|q ps IH]; intros r H Hp.
  - cbn in H. subst. exact Hp.
  - destruct H as (Hlen & Hmagic & Hsz & Hpay & Hrest).
    cbn [app frames_at]. repeat split; try assumption.
    apply IH; assumption.
Qed.

(** The frame [try_write] lays down at [w] reads back as a frame of [P]. *)
Lemma frame_written buf (P : list byte) (h : MessageHeader.t) w :
  Z.of_nat (length buf) = S ->
  Z.of_nat (length P) < 2 ^ 32 ->
  32 + Z.of_nat (length P) <= S ->
  0 <= w ->
  MessageHeader.magic h = MessageHeader.MAGIC ->
  MessageHeader.size h = Z.of_nat (length P) ->
  let bytes :=
    RingBuffer.write_bytes rb
      (RingBuffer.write_bytes rb buf (MessageHeader.to_bytes h) 32 w)
      P (Z.of_nat (length P)) (w + 32) in
  frame_header rb bytes w = MessageHeader.of_bytes (MessageHeader.to_bytes h)
  /\
  frames_at rb bytes w [P] (w + RingBuffer.total_size (Z.of_nat (length P))).
Proof.
  intros Hbuf Hlen Hfit Hw Hmagic Hsz bytes.
  assert (Hhdr : frame_header rb bytes w
                 = MessageHeader.of_bytes (MessageHeader.to_bytes h)).
  { unfold frame_header, bytes, MessageHeader.sizeof.
    rewrite (header_read_back rb Hsize Hpow Hmask)
      by (rewrite ?length_to_bytes; lia).
    reflexivity. }
  split; [assumption|].
  cbn [frames_at]. rewrite Hhdr, of_bytes_to_bytes.
  cbn [MessageHeader.magic MessageHeader.size]. rewrite Hmagic, Hsz.
  split; [assumption|]. split; [reflexivity|].
  split; [apply u32_small; lia|]. split; [|reflexivity].
  intros j Hj. unfold bytes.
  assert (Hi : 0 <= (w + 32 + Z.of_nat j) mod S < S)
    by (apply Z.mod_pos_bound; lia).
  rewrite (write_bytes_lookup rb Hsize Hpow Hmask);
    rewrite ?length_write_bytes; try lia.
  rewrite Z2Nat.id by lia.
  rewrite Zminus_mod_idemp_l.
  replace (w + 32 + Z.of_nat j - (w + 32)) with (Z.of_nat j) by lia.
  rewrite Z.mod_small by lia.
  destruct (Z.ltb_spec (Z.of_nat j) (Z.of_nat (length P))); [|lia].
  f_equal. lia.
Qed.

(** A successful [try_write] appends the payload to the queue the region
    holds. *)
Lemma try_write_appends (P : list byte) now shm shm' ps :
  queue_holds rb shm ps ->
  Z.of_nat (length P) < 2 ^ 32 ->
  SharedMemoryHeader.write_index (header shm)
    + RingBuffer.total_size (Z.of_nat (length P)) < 2 ^ 64 ->
  RingBuffer.try_write rb P (Z.of_nat (length P)) now shm = (true, shm') ->
  queue_holds rb shm' (ps ++ [P]) /\
  header shm'
    = SharedMemoryHeader.store_write_index
        (SharedMemoryHeader.write_index (header shm)
         + RingBuffer.total_size (Z.of_nat (length P))) (header shm).
Proof.
  intros (Hr & Hw & Hocc & Hring & Hframes) Hlen Hnowrap Hwrite.
  pose proof (frames_at_le _ _ _ _ Hframes) as Hle.
  pose proof (total_size_ge (Z.of_nat (length P)) ltac:(lia)) as Htot.
  set (len := Z.of_nat (length P)) in *.
  set (w := SharedMemoryHeader.write_index (header shm)) in *.
  set (r := SharedMemoryHeader.read_index (header shm)) in *.
  unfold RingBuffer.try_write in Hwrite.
  fold (RingBuffer.total_size len) in Hwrite. fold w r in Hwrite.
  rewrite (u64_small (w - r)), (u64_small (S - _)) in Hwrite by lia.
  destruct (Z.ltb_spec (S - (w - r)) (RingBuffer.total_size len))
    as [|Hfit]; [discriminate|].
  injection Hwrite as <-.
  unfold MessageHeader.sizeof.
  rewrite (u64_small (w + 32)), (u64_small (w + _)) by lia.
  split; [|reflexivity].
  set (h := MessageHeader.mk MessageHeader.MAGIC (u32 len) w now 0 0).
  destruct (frame_written (ring shm) P h w) as (_ & Hnew);
    try assumption; try lia; try reflexivity.
  { cbn. apply u32_small. lia. }
  unfold queue_holds.
  cbn [header ring SharedMemoryHeader.store_write_index
       SharedMemoryHeader.read_index SharedMemoryHeader.write_index].
  fold r. rewrite !length_write_bytes.
  split; [assumption|]. split; [lia|]. split; [lia|].
  split; [assumption|].
  apply frames_at_app with (w := w); [|exact Hnew].
  apply (frames_at_ext (ring shm)); try assumption;
    rewrite ?length_write_bytes; try assumption.
  intros a Ha.
  assert (Hi : 0 <= a mod S < S) by (apply Z.mod_pos_bound; lia).
  symmetry. apply write_frame_untouched; try assumption;
    rewrite ?length_to_bytes; try reflexivity; fold len; try lia.
  rewrite Z2Nat.id by lia. rewrite Zminus_mod_idemp_l.
  rewrite <- (Z_mod_plus_full (a - w) 1 S).
  replace (a - w + 1 * S) with (a - w + S) by lia.
  rewrite Z.mod_small by lia. fold len. lia.
Qed.

(** [try_read] takes the oldest payload off the queue the region holds. *)
Lemma try_read_pops (data : list byte) data_size shm p ps :
  queue_holds rb shm (p :: ps) ->
  Z.of_nat (length p) <= data_size <= Z.of_nat (length data) ->
  let rd := RingBuffer.try_read rb data data_size shm in
  RingBuffer.ok rd = true /\
  RingBuffer.data_size rd = Z.of_nat (length p) /\
  take (length p) (RingBuffer.data rd) = p /\
  drop (length p) (RingBuffer.data rd) = drop (length p) data /\
  RingBuffer.shm rd
    = {| header :=
           SharedMemoryHeader.store_read_index
             (SharedMemoryHeader.read_index (header shm)
              + RingBuffer.total_size (Z.of_nat (length p))) (header shm);
         ring := ring shm |} /\
  queue_holds rb (RingBuffer.shm rd) ps.
Proof.
  intros (Hr & Hw & Hocc & Hring & Hframes) Hcap.
  destruct Hframes as (Hlen & Hmagic & Hsz & Hpay & Hrest).
  pose proof (frames_at_le _ _ _ _ Hrest) as Hle.
  pose proof (total_size_ge (Z.of_nat (length p)) ltac:(lia)) as Htot.
  set (len := Z.of_nat (length p)) in *.
  set (w := SharedMemoryHeader.write_index (header shm)) in *.
  set (r := SharedMemoryHeader.read_index (header shm)) in *.
  unfold RingBuffer.try_read. fold w r.
  fold (frame_header rb (ring shm) r).
  destruct (Z.geb_spec r w); [lia|].
  rewrite Hmagic, Z.eqb_refl, Hsz. cbn [negb].
  destruct (Z.gtb_spec len data_size); [lia|].
  fold (RingBuffer.total_size len).
  unfold MessageHeader.sizeof.
  rewrite (u64_small (r + 32)), (u64_small (r + _)) by lia.
  cbn [RingBuffer.ok RingBuffer.data_size RingBuffer.data RingBuffer.shm].
  split; [reflexivity|]. split; [reflexivity|].
  split; [|split; [|split; [reflexivity|]]].
  - apply list_eq. intros j.
    destruct (Nat.lt_ge_cases j (length p)) as [Hj|Hj].
    + rewrite lookup_take_lt by assumption.
      rewrite (read_bytes_lookup rb Hsize Hpow Hmask) by lia.
      destruct (Z.ltb_spec (Z.of_nat j) len); [|lia].
      apply Hpay. assumption.
    + rewrite lookup_take_ge by assumption.
      symmetry. apply lookup_ge_None_2. assumption.
  - apply list_eq. intros j. rewrite !lookup_drop.
    rewrite (read_bytes_lookup rb Hsize Hpow Hmask) by lia.
    destruct (Z.ltb_spec (Z.of_nat (length p + j)) len); [lia|reflexivity].
  - unfold queue_holds.
    cbn [header ring SharedMemoryHeader.store_read_index
         SharedMemoryHeader.read_index SharedMemoryHeader.write_index].
    fold w. repeat split; try assumption; lia.
Qed.

End RingQueue.

(* ===================================================================== *)
(** ** What one write and one read do to the region *)

(** The region a successful [try_write] leaves, when the indices are in
    range and neither the frame size nor the new index overflows. *)
Lemma try_write_inv (rb : RingBuffer.t) data data_size now shm shm' :
  0 <= SharedMemoryHeader.read_index (header shm)
    <= SharedMemoryHeader.write_index (header shm) ->
  SharedMemoryHeader.write_index (header shm)
    - SharedMemoryHeader.read_index (header shm)
    <= RingBuffer.size_ rb < 2 ^ 64 ->
  0 <= data_size -> data_size + 39 < 2 ^ 64 ->
  SharedMemoryHeader.write_index (header shm)
    + RingBuffer.total_size data_size < 2 ^ 64 ->
  RingBuffer.try_write rb data data_size now shm = (true, shm') ->
  32 + data_size <= RingBuffer.total_size data_size /\
  RingBuffer.total_size data_size
    <= RingBuffer.size_ rb
       - (SharedMemoryHeader.write_index (header shm)
          - SharedMemoryHeader.read_index (header shm)) /\
  shm' =
    {| header :=
         SharedMemoryHeader.store_write_index
           (SharedMemoryHeader.write_index (header shm)
            + RingBuffer.total_size data_size) (header shm);
       ring :=
         RingBuffer.write_bytes rb
           (RingBuffer.write_bytes rb (ring shm)
              (MessageHeader.to_bytes
                 (MessageHeader.mk MessageHeader.MAGIC (u32 data_size)
                    (SharedMemoryHeader.write_index (header shm)) now 0 0))
              32 (SharedMemoryHeader.write_index (header shm)))
           data data_size
           (SharedMemoryHeader.write_index (header shm) + 32) |}.
Proof.
  intros Hr Hocc Hd0 Hd1 Hnowrap Hwrite.
  assert (Htot : 32 + data_size <= RingBuffer.total_size data_size).
  { rewrite total_size_exact by lia. Z.div_mod_to_equations. lia. }
  set (w := SharedMemoryHeader.write_index (header shm)) in *.
  set (r := SharedMemoryHeader.read_index (header shm)) in *.
  unfold RingBuffer.try_write in Hwrite.
  fold (RingBuffer.total_size data_size) in Hwrite. fold w r in Hwrite.
  rewrite (u64_small (w - r)), (u64_small (RingBuffer.size_ rb - _))
    in Hwrite by lia.
  destruct (Z.ltb_spec (RingBuffer.size_ rb - (w - r))
              (RingBuffer.total_size data_size)) as [|Hfit];
    [discriminate|].
  injection Hwrite as <-.
  unfold MessageHeader.sizeof.
  rewrite (u64_small (w + 32)), (u64_small (w + _)) by lia.
  repeat split; assumption.
Qed.

Lemma try_write_succeeds (rb : RingBuffer.t) data data_size now shm :
  RingBuffer.total_size data_size
    <= RingBuffer.available_write_space rb (header shm) ->
  fst (RingBuffer.try_write rb data data_size now shm) = true.
Proof.
  intros Hfit. unfold RingBuffer.try_write.
  fold (RingBuffer.total_size data_size).
  fold (RingBuffer.available_write_space rb (header shm)).
  destruct (Z.ltb_spec (RingBuffer.available_write_space rb (header shm))
              (RingBuffer.total_size data_size)); [lia|reflexivity].
Qed.



(** X13: [try_read] never writes to the ring and never changes a header
    field other than [read_index]; the caller's buffer keeps its length;
    and when it returns [false] the region and the caller's buffer are
    exactly as before. *)
Theorem try_read_never_writes (rb : RingBuffer.t) data data_size shm :
  let rd := RingBuffer.try_read rb data data_size shm in
  ring (RingBuffer.shm rd) = ring shm /\
  header (RingBuffer.shm rd)
    = SharedMemoryHeader.store_read_index
        (SharedMemoryHeader.read_index (header (RingBuffer.shm rd)))
        (header shm) /\
  length (RingBuffer.data rd) = length data /\
  (RingBuffer.ok rd = false ->
   RingBuffer.shm rd = shm /\ RingBuffer.data rd = data).
Proof.
  assert (Heta : forall h,
             h = SharedMemoryHeader.store_read_index
                   (SharedMemoryHeader.read_index h) h)
    by (intros []; reflexivity).
  unfold RingBuffer.try_read.
  destruct (_ >=? _); cbn [RingBuffer.shm RingBuffer.data RingBuffer.ok];
    [auto|].
  destruct (negb _); cbn [RingBuffer.shm RingBuffer.data RingBuffer.ok];
    [auto|].
  destruct (_ >? _); cbn [RingBuffer.shm RingBuffer.data RingBuffer.ok];
    [auto|].
  cbn [header ring]. split; [reflexivity|]. split; [reflexivity|].
  split; [apply length_read_bytes|discriminate].
Qed.



(* ===================================================================== *)
(** ** The queue discipline *)

Lemma small_ring_ok :
  0 < RingBuffer.size_ small_ring < 2 ^ 64 /\
  is_power_of_two (RingBuffer.size_ small_ring) = true /\
  RingBuffer.mask_ small_ring = u64 (RingBuffer.size_ small_ring - 1).
Proof. vm_compute. repeat split. Qed.

Lemma empty_region_holds :
  queue_holds small_ring
    {| header := header_at 0 0; ring := replicate 4096 x00 |} [].
Proof. vm_compute. repeat split; discriminate. Qed.

Lemma abc_region_holds : queue_holds small_ring abc_region [[x41; x42; x43]].
Proof.
  destruct small_ring_ok as (H1 & H2 & H3).
  apply (try_write_appends small_ring H1 H2 H3 [x41; x42; x43] 0
           {| header := header_at 0 0; ring := replicate 4096 x00 |}
           abc_region []).
  - exact empty_region_holds.
  - reflexivity.
  - reflexivity.
  - reflexivity.
Qed.

(** X15: the frame a successful [try_write] lays down at [write_index]
    carries the sentinel, the payload length, the old [write_index] as its
    sequence number, the clock reading, and zero in the checksum and
    reserved fields. *)
Theorem written_frame_header (rb : RingBuffer.t) (P : list byte) now shm shm'
    ps :
  0 < RingBuffer.size_ rb < 2 ^ 64 ->
  is_power_of_two (RingBuffer.size_ rb) = true ->
  RingBuffer.mask_ rb = u64 (RingBuffer.size_ rb - 1) ->
  queue_holds rb shm ps ->
  Z.of_nat (length P) < 2 ^ 32 ->
  SharedMemoryHeader.write_index (header shm)
    + RingBuffer.total_size (Z.of_nat (length P)) < 2 ^ 64 ->
  RingBuffer.try_write rb P (Z.of_nat (length P)) now shm = (true, shm') ->
  frame_header rb (ring shm') (SharedMemoryHeader.write_index (header shm))
  = {| MessageHeader.magic := MessageHeader.MAGIC;
       MessageHeader.size := Z.of_nat (length P);
       MessageHeader.sequence := SharedMemoryHeader.write_index (header shm);
       MessageHeader.timestamp := u64 now;
       MessageHeader.checksum := 0;
       MessageHeader.reserved := 0 |}.
Proof.
  intros Hsize Hpow Hmask (Hr & Hw & Hocc & Hring & Hframes) Hlen Hnowrap
    Hwrite.
  pose proof (frames_at_le rb _ _ _ _ Hframes) as Hle.
  destruct (try_write_inv rb P (Z.of_nat (length P)) now shm shm')
    as (Htot & Hfit & ->); try assumption; try lia.
  cbn [ring].
  destruct (frame_written rb Hsize Hpow Hmask (ring shm) P
              (MessageHeader.mk MessageHeader.MAGIC
                 (u32 (Z.of_nat (length P)))
                 (SharedMemoryHeader.write_index (header shm)) now 0 0)
              (SharedMemoryHeader.write_index (header shm)))
    as (Hhdr & _); try assumption; try lia; try reflexivity.
  { cbn. apply u32_small. lia. }
  rewrite Hhdr, of_bytes_to_bytes.
  cbn [MessageHeader.magic MessageHeader.size MessageHeader.sequence
       MessageHeader.timestamp MessageHeader.checksum
       MessageHeader.reserved].
  rewrite !(u32_small (Z.of_nat (length P))) by lia.
  rewrite (u64_small (SharedMemoryHeader.write_index (header shm))) by lia.
  reflexivity.
Qed.

Lemma written_frame_header_witness :
  frame_header small_ring (ring abc_region)
    (SharedMemoryHeader.write_index (header_at 0 0))
  = {| MessageHeader.magic := MessageHeader.MAGIC;
       MessageHeader.size := 3;
       MessageHeader.sequence := 0;
       MessageHeader.timestamp := u64 0;
       MessageHeader.checksum := 0;
       MessageHeader.reserved := 0 |}.
Proof.
  destruct small_ring_ok as (H1 & H2 & H3).
  apply (written_frame_header small_ring [x41; x42; x43] 0
           {| header := header_at 0 0; ring := replicate 4096 x00 |}
           abc_region [] H1 H2 H3).
  - exact empty_region_holds.
  - reflexivity.
  - reflexivity.
  - reflexivity.
Defined.

(** X16: writes keep the queue.  When the region holds the frames of the
    payloads [ps] between its indices, a successful [try_write] of [P]
    leaves every one of those frames readable as before and adds the frame
    of [P] behind them: the region then holds [ps ++ [P]], also when the
    new frame straddles the physical end of the ring. *)
Theorem try_write_appends_to_queue (rb : RingBuffer.t) (P : list byte) now shm
    shm' ps :
  0 < RingBuffer.size_ rb < 2 ^ 64 ->
  is_power_of_two (RingBuffer.size_ rb) = true ->
  RingBuffer.mask_ rb = u64 (RingBuffer.size_ rb - 1) ->
  queue_holds rb shm ps ->
  Z.of_nat (length P) < 2 ^ 32 ->
  SharedMemoryHeader.write_index (header shm)
    + RingBuffer.total_size (Z.of_nat (length P)) < 2 ^ 64 ->
  RingBuffer.try_write rb P (Z.of_nat (length P)) now shm = (true, shm') ->
  queue_holds rb shm' (ps ++ [P]).
Proof.
  intros Hsize Hpow Hmask Hq Hlen Hnowrap Hwrite.
  apply (try_write_appends rb Hsize Hpow Hmask P now shm shm' ps); assumption.
Qed.

Lemma try_write_appends_to_queue_witness :
  queue_holds small_ring
    (snd (RingBuffer.try_write small_ring [x44] 1 0 abc_region))
    ([[x41; x42; x43]] ++ [[x44]]).
Proof.
  destruct small_ring_ok as (H1 & H2 & H3).
  apply (try_write_appends_to_queue small_ring [x44] 0 abc_region
           (snd (RingBuffer.try_write small_ring [x44] 1 0 abc_region))
           [[x41; x42; x43]] H1 H2 H3).
  - exact abc_region_holds.
  - reflexivity.
  - reflexivity.
  - reflexivity.
Defined.

(** X17: reads take the queue in order.  When the region holds the
    payloads [p :: ps], a [try_read] whose buffer size is at least [p]'s
    length succeeds, reports [p]'s length, puts [p] at the front of the
    buffer and leaves the rest of the buffer alone, advances [read_index]
    by the frame size, and leaves a region that holds [ps]. *)
Theorem try_read_pops_oldest (rb : RingBuffer.t) (data : list byte) data_size
    shm p ps :
  0 < RingBuffer.size_ rb < 2 ^ 64 ->
  is_power_of_two (RingBuffer.size_ rb) = true ->
  RingBuffer.mask_ rb = u64 (RingBuffer.size_ rb - 1) ->
  queue_holds rb shm (p :: ps) ->
  Z.of_nat (length p) <= data_size <= Z.of_nat (length data) ->
  let rd := RingBuffer.try_read rb data data_size shm in
  RingBuffer.ok rd = true /\
  RingBuffer.data_size rd = Z.of_nat (length p) /\
  take (length p) (RingBuffer.data rd) = p /\
  drop (length p) (RingBuffer.data rd) = drop (length p) data /\
  SharedMemoryHeader.read_index (header (RingBuffer.shm rd))
    = SharedMemoryHeader.read_index (header shm)
      + RingBuffer.total_size (Z.of_nat (length p)) /\
  queue_holds rb (RingBuffer.shm rd) ps.
Proof.
  intros Hsize Hpow Hmask Hq Hcap.
  destruct (try_read_pops rb Hsize Hpow Hmask data data_size shm p ps Hq Hcap)
    as (H1 & H2 & H3 & H4 & H5 & H6).
  split; [exact H1|]. split; [exact H2|]. split; [exact H3|].
  split; [exact H4|]. split; [|exact H6].
  cbv zeta. rewrite H5. reflexivity.
Qed.

Lemma try_read_pops_oldest_witness :
  let rd := RingBuffer.try_read small_ring (replicate 8 x00) 8 abc_region in
  RingBuffer.ok rd = true /\
  RingBuffer.data_size rd = Z.of_nat (length [x41; x42; x43]) /\
  take (length [x41; x42; x43]) (RingBuffer.data rd) = [x41; x42; x43] /\
  drop (length [x41; x42; x43]) (RingBuffer.data rd)
    = drop (length [x41; x42; x43]) (replicate 8 x00) /\
  SharedMemoryHeader.read_index (header (RingBuffer.shm rd))
    = SharedMemoryHeader.read_index (header abc_region)
      + RingBuffer.total_size (Z.of_nat (length [x41; x42; x43])) /\
  queue_holds small_ring (RingBuffer.shm rd) [].
Proof.
  destruct small_ring_ok as (H1 & H2 & H3).
  apply (try_read_pops_oldest small_ring (replicate 8 x00) 8 abc_region
           [x41; x42; x43] [] H1 H2 H3).
  - exact abc_region_holds.
  - vm_compute. split; discriminate.
Defined.

(* ===================================================================== *)
(** ** Sending *)

Lemma frames_size_nonneg ps : 0 <= frames_size ps.
Proof.
  induction ps as [|p ps IH]; [cbn; lia|].
  cbn [frames_size foldr]. fold (frames_size ps).
  pose proof (u64_range (MessageHeader.sizeof
                         + align_up (Z.of_nat (length p)) 8)).
  unfold RingBuffer.total_size. lia.
Qed.

(** Under an accepted configuration a frame of an allowed message takes at
    most half the ring plus the header. *)
Lemma valid_frame_fits (c : ChannelConfig.t) size :
  ChannelConfig.ring_buffer_size c < 2 ^ 64 ->
  ChannelConfig.is_valid c = true ->
  0 <= size <= ChannelConfig.max_message_size c ->
  RingBuffer.total_size size <= ChannelConfig.ring_buffer_size c / 2 + 32.
Proof.
  intros Hlt Hv Hs. destruct (is_valid_inv c Hv) as (Hp & Hmax & Hring & Hmin).
  destruct (is_power_of_two_spec (ChannelConfig.ring_buffer_size c))
    as (k & Hk & Hpow); [lia|assumption|].
  rewrite Hpow in Hring. destruct (pow2_ge_4096 k Hk Hring) as (t & Ht & Hkt).
  rewrite <- Hpow in Hkt. rewrite Hkt in *.
  assert (Hhalf : 4096 * t / 2 = 2048 * t) by (Z.div_mod_to_equations; lia).
  rewrite Hhalf in *.
  rewrite total_size_exact by lia.
  Z.div_mod_to_equations. lia.
Qed.

Section SenderQueue.

Variable s : Sender.t.
Variable c : Channel.t.
Hypothesis Hchannel : Sender.channel_ s = Some c.
Hypothesis Hopen : Channel.is_open c = true.

Lemma send_bytes_ready data size now shm :
  Sender.send_bytes s data size now shm =
    if size >? ChannelConfig.max_message_size (Sender.config_ s) then
      (Err MessageTooLarge, shm)
    else
      let (written, shm1) :=
        RingBuffer.try_write (Channel.ring_buffer c) data size now shm in
      if written then (Ok tt, shm1) else (Err ChannelFull, shm1).
Proof.
  unfold Sender.send_bytes, Sender.is_ready. rewrite Hchannel, Hopen.
  cbn [negb]. destruct (_ >? _); [reflexivity|].
  destruct (RingBuffer.try_write _ _ _ _ _) as [[] shm1]; [reflexivity|].
  destruct (ChannelConfig.overwrite_on_full _); reflexivity.
Qed.

Hypothesis Hsize : 0 < RingBuffer.size_ (Channel.ring_buffer c) < 2 ^ 64.
Hypothesis Hpow :
  is_power_of_two (RingBuffer.size_ (Channel.ring_buffer c)) = true.
Hypothesis Hmask :
  RingBuffer.mask_ (Channel.ring_buffer c)
  = u64 (RingBuffer.size_ (Channel.ring_buffer c) - 1).

(** A send that fits appends its payload to the queue. *)
Lemma send_appends (P : list byte) now shm ps :
  queue_holds (Channel.ring_buffer c) shm ps ->
  Z.of_nat (length P) <= ChannelConfig.max_message_size (Sender.config_ s) ->
  Z.of_nat (length P) < 2 ^ 32 ->
  RingBuffer.total_size (Z.of_nat (length P))
    <= RingBuffer.size_ (Channel.ring_buffer c)
       - (SharedMemoryHeader.write_index (header shm)
          - SharedMemoryHeader.read_index (header shm)) ->
  SharedMemoryHeader.write_index (header shm)
    + RingBuffer.total_size (Z.of_nat (length P)) < 2 ^ 64 ->
  exists shm',
    Sender.send_bytes s P (Z.of_nat (length P)) now shm = (Ok tt, shm') /\
    queue_holds (Channel.ring_buffer c) shm' (ps ++ [P]) /\
    SharedMemoryHeader.write_index (header shm')
      = SharedMemoryHeader.write_index (header shm)
        + RingBuffer.total_size (Z.of_nat (length P)) /\
    SharedMemoryHeader.read_index (header shm')
      = SharedMemoryHeader.read_index (header shm).
Proof.
  intros Hq Hmax Hlen Hfit Hnowrap.
  pose proof Hq as (Hr & Hw & Hocc & Hring & Hframes).
  pose proof (frames_at_le _ _ _ _ _ Hframes) as Hle.
  rewrite send_bytes_ready.
  destruct (Z.gtb_spec (Z.of_nat (length P))
              (ChannelConfig.max_message_size (Sender.config_ s))); [lia|].
  pose proof (try_write_succeeds (Channel.ring_buffer c) P
                (Z.of_nat (length P)) now shm) as Hok.
  rewrite available_write_space_exact in Hok by lia.
  specialize (Hok Hfit).
  destruct (RingBuffer.try_write _ _ _ _ _) as [written shm1] eqn:Hwrite.
  cbn [fst] in Hok. subst written.
  destruct (try_write_appends _ Hsize Hpow Hmask P now shm shm1 ps)
    as (Hq1 & Hh1); try assumption.
  exists shm1. split; [reflexivity|]. split; [assumption|].
  rewrite Hh1. split; reflexivity.
Qed.

Lemma send_all_appends (msgs : list (list byte * Z)) shm ps :
  queue_holds (Channel.ring_buffer c) shm ps ->
  Forall (fun m =>
            Z.of_nat (length (fst m))
              <= ChannelConfig.max_message_size (Sender.config_ s) /\
            Z.of_nat (length (fst m)) < 2 ^ 32) msgs ->
  frames_size (map fst msgs)
    <= RingBuffer.size_ (Channel.ring_buffer c)
       - (SharedMemoryHeader.write_index (header shm)
          - SharedMemoryHeader.read_index (header shm)) ->
  SharedMemoryHeader.write_index (header shm) + frames_size (map fst msgs)
    < 2 ^ 64 ->
  exists shm',
    Sender.send_all s msgs shm = (replicate (length msgs) (Ok tt), shm') /\
    queue_holds (Channel.ring_buffer c) shm' (ps ++ map fst msgs).
Proof.
  revert shm ps. induction msgs as [|[P now] rest IH];
    intros shm ps Hq Hall Hfit Hnowrap.
  - exists shm. cbn. rewrite app_nil_r. split; [reflexivity|assumption].
  - apply Forall_cons in Hall as [[Hmax Hlen] Hall]. cbn [fst] in Hmax, Hlen.
    cbn [map fst frames_size foldr] in Hfit, Hnowrap.
    fold (frames_size (map fst rest)) in Hfit, Hnowrap.
    pose proof (frames_size_nonneg (map fst rest)) as Hnn.
    destruct (send_appends P now shm ps) as (shm1 & Hs & Hq1 & Hw1 & Hr1);
      try assumption; try lia.
    destruct (IH shm1 (ps ++ [P])) as (shm2 & Hs2 & Hq2);
      try assumption; rewrite ?Hw1, ?Hr1; try lia.
    exists shm2. cbn [Sender.send_all length replicate map fst].
    rewrite Hs, Hs2. split; [reflexivity|].
    rewrite <- app_assoc in Hq2. exact Hq2.
Qed.

End SenderQueue.

(** X18: a [send_bytes] that does not succeed has no effect, and it fails
    in one of three ways only: [ChannelClosed], [MessageTooLarge] or
    [ChannelFull]. *)
Theorem send_failure_has_no_effect (s : Sender.t) data size now shm :
  fst (Sender.send_bytes s data size now shm) = Ok tt \/
  (snd (Sender.send_bytes s data size now shm) = shm /\
   (fst (Sender.send_bytes s data size now shm) = Err ChannelClosed \/
    fst (Sender.send_bytes s data size now shm) = Err MessageTooLarge \/
    fst (Sender.send_bytes s data size now shm) = Err ChannelFull)).
Proof.
  unfold Sender.send_bytes.
  destruct (negb (Sender.is_ready s)); [right; auto|].
  destruct (_ >? _); [right; auto|].
  destruct (Sender.channel_ s) as [c|]; [|right; auto].
  unfold RingBuffer.try_write.
  destruct (_ <? _); [|left; reflexivity].
  right. destruct (ChannelConfig.overwrite_on_full _); auto.
Qed.

(** X19: on a ready sender [send_bytes] succeeds exactly when the size is
    within [max_message_size] and the frame size is within what
    [available_space] reports. *)
Theorem send_succeeds_iff (s : Sender.t) (c : Channel.t) data size now shm :
  Sender.channel_ s = Some c ->
  Channel.is_open c = true ->
  (fst (Sender.send_bytes s data size now shm) = Ok tt <->
   size <= ChannelConfig.max_message_size (Sender.config_ s) /\
   RingBuffer.total_size size <= Sender.available_space s shm).
Proof.
  intros Hc Hopen.
  rewrite (send_bytes_ready s c Hc Hopen).
  unfold Sender.available_space. rewrite Hc, Hopen. cbn [negb].
  unfold RingBuffer.try_write.
  fold (RingBuffer.total_size size).
  fold (RingBuffer.available_write_space (Channel.ring_buffer c) (header shm)).
  destruct (Z.gtb_spec size
              (ChannelConfig.max_message_size (Sender.config_ s))).
  - cbn [fst]. split; [discriminate|lia].
  - destruct (Z.ltb_spec
                (RingBuffer.available_write_space (Channel.ring_buffer c)
                   (header shm))
                (RingBuffer.total_size size)); cbn [fst].
    + split; [discriminate|lia].
    + split; [lia|reflexivity].
Qed.

Lemma send_succeeds_iff_witness :
  fst (Sender.send_bytes small_sender [x41] 1 0 full_region) = Ok tt <->
  1 <= ChannelConfig.max_message_size (Sender.config_ small_sender) /\
  RingBuffer.total_size 1 <= Sender.available_space small_sender full_region.
Proof.
  apply (send_succeeds_iff small_sender small_channel [x41] 1 0 full_region).
  - reflexivity.
  - reflexivity.
Defined.

(** X20: of the whole configuration [send_bytes] consults only
    [max_message_size]: two senders bound to the same channel whose
    configurations agree on that field answer every send alike, whatever
    [overwrite_on_full], [enable_checksum], [timeout_us] and [flags] say.  In
    particular a full ring is reported as [ChannelFull] with
    [overwrite_on_full] set, and nothing is overwritten. *)
Theorem send_consults_only_max_message_size (s1 s2 : Sender.t) data size now
    shm :
  Sender.channel_ s1 = Sender.channel_ s2 ->
  ChannelConfig.max_message_size (Sender.config_ s1)
    = ChannelConfig.max_message_size (Sender.config_ s2) ->
  Sender.send_bytes s1 data size now shm
    = Sender.send_bytes s2 data size now shm.
Proof.
  intros Hc Hmax. unfold Sender.send_bytes, Sender.is_ready.
  rewrite Hc, Hmax.
  destruct (negb _); [reflexivity|].
  destruct (_ >? _); [reflexivity|].
  destruct (Sender.channel_ s2); [|reflexivity].
  destruct (RingBuffer.try_write _ _ _ _ _) as [[] shm1]; [reflexivity|].
  destruct (ChannelConfig.overwrite_on_full (Sender.config_ s1));
    destruct (ChannelConfig.overwrite_on_full (Sender.config_ s2));
    reflexivity.
Qed.

Lemma send_consults_only_max_message_size_witness :
  Sender.send_bytes small_sender (replicate 256 x00) 256 0 full_region
  = Sender.send_bytes
      (Sender.mk "demo" (ChannelConfig.mk 4096 1024 1 5 true true)
         (Some small_channel))
      (replicate 256 x00) 256 0 full_region.
Proof.
  apply send_consults_only_max_message_size; reflexivity.
Defined.

(** X21: progress under an accepted configuration.  Whenever the sender
    sees at least half the ring plus one header free, every message of an
    allowed size is accepted; an empty ring therefore accepts any allowed
    message, one of exactly [max_message_size] bytes included. *)
Theorem allowed_message_fits_half_free_ring (s : Sender.t) (c : Channel.t)
    data size now shm :
  Sender.channel_ s = Some c ->
  Channel.is_open c = true ->
  ChannelConfig.is_valid (Sender.config_ s) = true ->
  ChannelConfig.ring_buffer_size (Sender.config_ s) < 2 ^ 64 ->
  0 <= size <= ChannelConfig.max_message_size (Sender.config_ s) ->
  ChannelConfig.ring_buffer_size (Sender.config_ s) / 2 + 32
    <= Sender.available_space s shm ->
  fst (Sender.send_bytes s data size now shm) = Ok tt.
Proof.
  intros Hc Hopen Hv Hlt Hs Hfree.
  pose proof (valid_frame_fits (Sender.config_ s) size Hlt Hv Hs) as Hfit.
  rewrite (send_bytes_ready s c Hc Hopen).
  destruct (Z.gtb_spec size
              (ChannelConfig.max_message_size (Sender.config_ s))); [lia|].
  unfold Sender.available_space in Hfree. rewrite Hc, Hopen in Hfree.
  cbn [negb] in Hfree.
  pose proof (try_write_succeeds (Channel.ring_buffer c) data size now shm
                ltac:(lia)) as Hok.
  destruct (RingBuffer.try_write _ _ _ _ _) as [written shm1].
  cbn [fst] in Hok. subst written. reflexivity.
Qed.

Lemma allowed_message_fits_half_free_ring_witness :
  fst (Sender.send_bytes small_sender (replicate 1024 x00) 1024 0
         {| header := header_at 0 0; ring := replicate 4096 x00 |}) = Ok tt.
Proof.
  apply (allowed_message_fits_half_free_ring small_sender small_channel).
  - reflexivity.
  - reflexivity.
  - reflexivity.
  - reflexivity.
  - vm_compute. split; discriminate.
  - vm_compute. discriminate.
Defined.

(* ===================================================================== *)
(** ** Receiving *)

Section ReceiverQueue.

Variable c : Channel.t.
Hypothesis Hopen : Channel.is_open c = true.
Hypothesis Hsize : 0 < RingBuffer.size_ (Channel.ring_buffer c) < 2 ^ 64.
Hypothesis Hpow :
  is_power_of_two (RingBuffer.size_ (Channel.ring_buffer c)) = true.
Hypothesis Hmask :
  RingBuffer.mask_ (Channel.ring_buffer c)
  = u64 (RingBuffer.size_ (Channel.ring_buffer c) - 1).

Lemma poll_buffer_size (r : Receiver.t) :
  0 <= ChannelConfig.max_message_size (Receiver.config_ r) ->
  Z.of_nat
    (length
       (replicate
          (Z.to_nat (ChannelConfig.max_message_size (Receiver.config_ r)))
          x00))
  = ChannelConfig.max_message_size (Receiver.config_ r).
Proof. intros H. rewrite length_replicate. lia. Qed.

(** One poll on a non-empty queue hands the oldest payload to the
    handler. *)
Lemma poll_one_delivers (r : Receiver.t) shm p ps :
  Receiver.channel_ r = Some c ->
  queue_holds (Channel.ring_buffer c) shm (p :: ps) ->
  Z.of_nat (length p) <= ChannelConfig.max_message_size (Receiver.config_ r) ->
  let pr := Receiver.poll_one r shm in
  Receiver.result pr = Ok true /\
  Receiver.handled pr = Some p /\
  queue_holds (Channel.ring_buffer c) (Receiver.shm pr) ps /\
  Receiver.channel_ (Receiver.self pr) = Receiver.channel_ r /\
  Receiver.config_ (Receiver.self pr) = Receiver.config_ r /\
  Receiver.messages_received (Receiver.stats_ (Receiver.self pr))
    = u64 (Receiver.messages_received (Receiver.stats_ r) + 1) /\
  Receiver.bytes_received (Receiver.stats_ (Receiver.self pr))
    = u64 (Receiver.bytes_received (Receiver.stats_ r)
           + Z.of_nat (length p)).
Proof.
  intros Hc Hq Hmax.
  unfold Receiver.poll_one. rewrite Hc, Hopen. cbn [negb].
  rewrite poll_buffer_size by lia.
  destruct (try_read_pops _ Hsize Hpow Hmask
              (replicate
                 (Z.to_nat (ChannelConfig.max_message_size (Receiver.config_ r)))
                 x00)
              (ChannelConfig.max_message_size (Receiver.config_ r))
              shm p ps Hq)
    as (Hok & Hsz & Htake & _ & _ & Hq').
  { rewrite poll_buffer_size by lia. lia. }
  cbv zeta in *. rewrite Hok, Hsz.
  cbn [Receiver.result Receiver.handled Receiver.shm Receiver.self
       Receiver.channel_ Receiver.config_ Receiver.stats_
       Receiver.messages_received Receiver.bytes_received].
  rewrite Nat2Z.id, Htake.
  split; [reflexivity|]. split; [reflexivity|]. split; [exact Hq'|].
  repeat split.
Qed.

(** One poll on an empty queue reports [false] and changes nothing. *)
Lemma poll_one_empty (r : Receiver.t) shm :
  Receiver.channel_ r = Some c ->
  queue_holds (Channel.ring_buffer c) shm [] ->
  Receiver.poll_one r shm = Receiver.mk_poll (Ok false) None r shm.
Proof.
  intros Hc (_ & _ & _ & _ & Heq). cbn in Heq.
  unfold Receiver.poll_one. rewrite Hc, Hopen. cbn [negb].
  unfold RingBuffer.try_read. rewrite Heq.
  destruct (Z.geb_spec (SharedMemoryHeader.write_index (header shm))
              (SharedMemoryHeader.write_index (header shm))); [|lia].
  reflexivity.
Qed.

(** One poll whose oldest frame is larger than the receiver's buffer
    reports [false] and changes nothing. *)
Lemma poll_one_oversize (r : Receiver.t) shm p ps :
  Receiver.channel_ r = Some c ->
  queue_holds (Channel.ring_buffer c) shm (p :: ps) ->
  0 <= ChannelConfig.max_message_size (Receiver.config_ r)
    < Z.of_nat (length p) ->
  Receiver.poll_one r shm = Receiver.mk_poll (Ok false) None r shm.
Proof.
  intros Hc (Hr & Hw & Hocc & Hring & Hframes) Hmax.
  destruct Hframes as (Hlen & Hmagic & Hsz & Hpay & Hrest).
  pose proof (frames_at_le _ _ _ _ _ Hrest) as Hle.
  pose proof (total_size_ge (Z.of_nat (length p)) ltac:(lia)) as Htot.
  unfold Receiver.poll_one. rewrite Hc, Hopen. cbn [negb].
  rewrite poll_buffer_size by lia.
  unfold RingBuffer.try_read.
  fold (frame_header (Channel.ring_buffer c) (ring shm)
          (SharedMemoryHeader.read_index (header shm))).
  destruct (Z.geb_spec (SharedMemoryHeader.read_index (header shm))
              (SharedMemoryHeader.write_index (header shm))); [lia|].
  rewrite Hmagic, Z.eqb_refl, Hsz. cbn [negb].
  destruct (Z.gtb_spec (Z.of_nat (length p))
              (ChannelConfig.max_message_size (Receiver.config_ r)));
    [reflexivity|lia].
Qed.

(** Polling once per queued payload hands all of them to the handler, in
    order, and leaves the queue empty. *)
Lemma poll_collect_drains ps :
  forall (r : Receiver.t) shm,
    Receiver.channel_ r = Some c ->
    queue_holds (Channel.ring_buffer c) shm ps ->
    Forall (fun p =>
              Z.of_nat (length p)
                <= ChannelConfig.max_message_size (Receiver.config_ r)) ps ->
    exists r' shm',
      Receiver.poll_collect (length ps) r shm = (ps, r', shm') /\
      queue_holds (Channel.ring_buffer c) shm' [] /\
      Receiver.channel_ r' = Some c /\
      Receiver.config_ r' = Receiver.config_ r.
Proof.
  induction ps as [|p ps IH]; intros r shm Hc Hq Hall.
  - exists r, shm. split; [reflexivity|]. split; [assumption|].
    split; [assumption|reflexivity].
  - apply Forall_cons in Hall as [Hp Hall].
    destruct (poll_one_delivers r shm p ps Hc Hq Hp)
      as (Hres & Hh & Hq' & Hc' & Hcfg' & _).
    cbv zeta in *.
    destruct (IH (Receiver.self (Receiver.poll_one r shm))
                (Receiver.shm (Receiver.poll_one r shm)))
      as (r' & shm' & Hcol & Hq'' & Hc'' & Hcfg'');
      [congruence|assumption|rewrite Hcfg'; assumption|].
    exists r', shm'. cbn [length Receiver.poll_collect].
    rewrite Hcol, Hh.
    split; [reflexivity|]. split; [assumption|]. split; [assumption|].
    congruence.
Qed.

End ReceiverQueue.

(** X22: on a region that holds the payloads [p :: ps], one [poll_one] of a
    receiver whose [max_message_size] is at least [p]'s length returns
    [true], calls the handler with exactly [p], counts one message and
    [p]'s length in bytes, and leaves a region that holds [ps]. *)
Theorem poll_one_delivers_oldest (r : Receiver.t) (c : Channel.t) shm p ps :
  Receiver.channel_ r = Some c ->
  Channel.is_open c = true ->
  0 < RingBuffer.size_ (Channel.ring_buffer c) < 2 ^ 64 ->
  is_power_of_two (RingBuffer.size_ (Channel.ring_buffer c)) = true ->
  RingBuffer.mask_ (Channel.ring_buffer c)
    = u64 (RingBuffer.size_ (Channel.ring_buffer c) - 1) ->
  queue_holds (Channel.ring_buffer c) shm (p :: ps) ->
  Z.of_nat (length p) <= ChannelConfig.max_message_size (Receiver.config_ r) ->
  Receiver.result (Receiver.poll_one r shm) = Ok true /\
  Receiver.handled (Receiver.poll_one r shm) = Some p /\
  queue_holds (Channel.ring_buffer c) (Receiver.shm (Receiver.poll_one r shm))
    ps /\
  Receiver.messages_received
    (Receiver.stats_ (Receiver.self (Receiver.poll_one r shm)))
    = u64 (Receiver.messages_received (Receiver.stats_ r) + 1) /\
  Receiver.bytes_received
    (Receiver.stats_ (Receiver.self (Receiver.poll_one r shm)))
    = u64 (Receiver.bytes_received (Receiver.stats_ r)
           + Z.of_nat (length p)).
Proof.
  intros Hc Hopen Hsize Hpow Hmask Hq Hmax.
  destruct (poll_one_delivers c Hopen Hsize Hpow Hmask r shm p ps Hc Hq Hmax)
    as (H1 & H2 & H3 & _ & _ & H4 & H5).
  split; [exact H1|]. split; [exact H2|]. split; [exact H3|].
  split; [exact H4|exact H5].
Qed.

Lemma poll_one_delivers_oldest_witness :
  Receiver.result (Receiver.poll_one small_receiver abc_region) = Ok true /\
  Receiver.handled (Receiver.poll_one small_receiver abc_region)
    = Some [x41; x42; x43] /\
  queue_holds (Channel.ring_buffer small_channel)
    (Receiver.shm (Receiver.poll_one small_receiver abc_region)) [] /\
  Receiver.messages_received
    (Receiver.stats_
       (Receiver.self (Receiver.poll_one small_receiver abc_region)))
    = u64 (Receiver.messages_received (Receiver.stats_ small_receiver) + 1) /\
  Receiver.bytes_received
    (Receiver.stats_
       (Receiver.self (Receiver.poll_one small_receiver abc_region)))
    = u64 (Receiver.bytes_received (Receiver.stats_ small_receiver)
           + Z.of_nat (length [x41; x42; x43])).
Proof.
  destruct small_ring_ok as (H1 & H2 & H3).
  apply (poll_one_delivers_oldest small_receiver small_channel abc_region
           [x41; x42; x43] []).
  - reflexivity.
  - reflexivity.
  - exact H1.
  - exact H2.
  - exact H3.
  - exact abc_region_holds.
  - vm_compute. discriminate.
Defined.

(** X23: head-of-line blocking.  When the oldest frame's payload is longer
    than the receiver's [max_message_size], the size of the buffer
    [poll_one] reads into, every poll returns [false] without calling the
    handler and without moving [read_index]: the frame, and every frame
    behind it, stays in the ring however often the receiver polls. *)
Theorem poll_blocked_by_oversize_frame (r : Receiver.t) (c : Channel.t) shm p
    ps (n : nat) :
  Receiver.channel_ r = Some c ->
  Channel.is_open c = true ->
  queue_holds (Channel.ring_buffer c) shm (p :: ps) ->
  0 <= ChannelConfig.max_message_size (Receiver.config_ r)
    < Z.of_nat (length p) ->
  Receiver.poll_one r shm = Receiver.mk_poll (Ok false) None r shm /\
  Receiver.poll_many n r shm = (replicate n (Ok false), r, shm) /\
  Receiver.poll_collect n r shm = ([], r, shm).
Proof.
  intros Hc Hopen Hq Hmax.
  pose proof (poll_one_oversize c Hopen r shm p ps Hc Hq Hmax) as Hpoll.
  split; [assumption|]. split.
  - induction n as [|n IH]; [reflexivity|].
    cbn [Receiver.poll_many]. rewrite Hpoll.
    cbn [Receiver.self Receiver.shm Receiver.result]. rewrite IH.
    reflexivity.
  - induction n as [|n IH]; [reflexivity|].
    cbn [Receiver.poll_collect]. rewrite Hpoll.
    cbn [Receiver.self Receiver.shm Receiver.handled]. rewrite IH.
    reflexivity.
Qed.

Lemma poll_blocked_by_oversize_frame_witness :
  Receiver.poll_one
    (Receiver.mk "demo" (ChannelConfig.mk 4096 2 0 0 false false)
       (Some small_channel) false (Receiver.mk_stats 0 0 0 0)) abc_region
  = Receiver.mk_poll (Ok false) None
      (Receiver.mk "demo" (ChannelConfig.mk 4096 2 0 0 false false)
         (Some small_channel) false (Receiver.mk_stats 0 0 0 0)) abc_region /\
  Receiver.poll_many 2
    (Receiver.mk "demo" (ChannelConfig.mk 4096 2 0 0 false false)
       (Some small_channel) false (Receiver.mk_stats 0 0 0 0)) abc_region
  = (replicate 2 (Ok false),
     Receiver.mk "demo" (ChannelConfig.mk 4096 2 0 0 false false)
       (Some small_channel) false (Receiver.mk_stats 0 0 0 0), abc_region) /\
  Receiver.poll_collect 2
    (Receiver.mk "demo" (ChannelConfig.mk 4096 2 0 0 false false)
       (Some small_channel) false (Receiver.mk_stats 0 0 0 0)) abc_region
  = ([],
     Receiver.mk "demo" (ChannelConfig.mk 4096 2 0 0 false false)
       (Some small_channel) false (Receiver.mk_stats 0 0 0 0), abc_region).
Proof.
  apply (poll_blocked_by_oversize_frame
           (Receiver.mk "demo" (ChannelConfig.mk 4096 2 0 0 false false)
              (Some small_channel) false (Receiver.mk_stats 0 0 0 0))
           small_channel abc_region [x41; x42; x43] [] 2).
  - reflexivity.
  - reflexivity.
  - exact abc_region_holds.
  - vm_compute. split; [discriminate|reflexivity].
Defined.

(* ===================================================================== *)
(** ** End to end *)

(** X24: what is sent is what is received, in order.  A sender and a
    receiver are bound to channels over the same ring; the region holds an
    empty queue; every payload is within both [max_message_size]s and
    below [2 ^ 32] bytes, and the frames together fit the ring.  Then every
    send of the run succeeds, polling once per message hands the handler
    exactly the payloads sent, in the order sent, and the poll after that
    finds the ring empty. *)
Theorem send_then_drain (s : Sender.t) (r : Receiver.t) (cs cr : Channel.t)
    (msgs : list (list byte * Z)) shm :
  Sender.channel_ s = Some cs ->
  Receiver.channel_ r = Some cr ->
  Channel.is_open cs = true ->
  Channel.is_open cr = true ->
  Channel.ring_buffer cs = Channel.ring_buffer cr ->
  0 < RingBuffer.size_ (Channel.ring_buffer cs) < 2 ^ 64 ->
  is_power_of_two (RingBuffer.size_ (Channel.ring_buffer cs)) = true ->
  RingBuffer.mask_ (Channel.ring_buffer cs)
    = u64 (RingBuffer.size_ (Channel.ring_buffer cs) - 1) ->
  queue_holds (Channel.ring_buffer cs) shm [] ->
  Forall (fun m =>
            Z.of_nat (length (fst m))
              <= ChannelConfig.max_message_size (Sender.config_ s) /\
            Z.of_nat (length (fst m))
              <= ChannelConfig.max_message_size (Receiver.config_ r) /\
            Z.of_nat (length (fst m)) < 2 ^ 32) msgs ->
  frames_size (map fst msgs) <= RingBuffer.size_ (Channel.ring_buffer cs) ->
  SharedMemoryHeader.write_index (header shm) + frames_size (map fst msgs)
    < 2 ^ 64 ->
  exists shm1 r' shm2,
    Sender.send_all s msgs shm = (replicate (length msgs) (Ok tt), shm1) /\
    Receiver.poll_collect (length msgs) r shm1 = (map fst msgs, r', shm2) /\
    Receiver.poll_one r' shm2 = Receiver.mk_poll (Ok false) None r' shm2.
Proof.
  intros Hs Hr Hos Hor Hrb Hsize Hpow Hmask Hq Hall Hfit Hnowrap.
  pose proof Hq as (_ & _ & _ & _ & Hempty). cbn in Hempty.
  destruct (send_all_appends s cs Hs Hos Hsize Hpow Hmask msgs shm [])
    as (shm1 & Hsend & Hq1); try assumption.
  { eapply Forall_impl; [exact Hall|]. intros m (H1 & _ & H3). auto. }
  { rewrite Hempty. lia. }
  cbn [app] in Hq1. rewrite Hrb in Hq1, Hsize, Hpow, Hmask.
  destruct (poll_collect_drains cr Hor Hsize Hpow Hmask (map fst msgs) r shm1)
    as (r' & shm2 & Hcol & Hq2 & Hc' & Hcfg'); try assumption.
  { apply Forall_map. eapply Forall_impl; [exact Hall|].
    intros m (_ & H2 & _). exact H2. }
  rewrite length_map in Hcol.
  exists shm1, r', shm2. split; [assumption|]. split; [assumption|].
  apply (poll_one_empty cr Hor r' shm2 Hc' Hq2).
Qed.

Lemma send_then_drain_witness :
  exists shm1 r' shm2,
    Sender.send_all small_sender [([x41; x42; x43], 0); ([x44], 5)]
      {| header := header_at 0 0; ring := replicate 4096 x00 |}
      = (replicate (length [([x41; x42; x43], 0); ([x44], 5)]) (Ok tt), shm1)
    /\
    Receiver.poll_collect (length [([x41; x42; x43], 0); ([x44], 5)])
      small_receiver shm1
      = (map fst [([x41; x42; x43], 0); ([x44], 5)], r', shm2) /\
    Receiver.poll_one r' shm2 = Receiver.mk_poll (Ok false) None r' shm2.
Proof.
  destruct small_ring_ok as (H1 & H2 & H3).
  apply (send_then_drain small_sender small_receiver small_channel
           small_channel).
  - reflexivity.
  - reflexivity.
  - reflexivity.
  - reflexivity.
  - reflexivity.
  - exact H1.
  - exact H2.
  - exact H3.
  - exact empty_region_holds.
  - repeat constructor; vm_compute; discriminate.
  - vm_compute. discriminate.
  - reflexivity.
Defined.

(* ===================================================================== *)
(** ** Error messages and counters *)

(** X25: [error_to_string] gives every error code a message of its own:
    two codes with the same message are the same code. *)
Theorem error_to_string_injective (a b : ErrorCode) :
  error_to_string a = error_to_string b -> a = b.
Proof. destruct a, b; intros H; try reflexivity; discriminate H. Qed.

Lemma error_to_string_injective_witness : ChannelFull = ChannelFull.
Proof. apply (error_to_string_injective ChannelFull ChannelFull). reflexivity. Defined.

Section Counters.

Import GlobalStats.

Lemma u64_idem z : u64 (u64 z) = u64 z.
Proof. unfold u64. apply Z.mod_mod. lia. Qed.

Lemma u64_add_l a b : u64 (u64 a + b) = u64 (a + b).
Proof. unfold u64. apply Zplus_mod_idemp_l. Qed.

Lemma record_all_totals cs :
  forall st, in_range st ->
    messages_sent (record_all cs st) = u64 (messages_sent st + sends cs) /\
    messages_received (record_all cs st)
      = u64 (messages_received st + receives cs) /\
    bytes_sent (record_all cs st) = u64 (bytes_sent st + sent_bytes cs) /\
    bytes_received (record_all cs st)
      = u64 (bytes_received st + received_bytes cs) /\
    buffer_full_events (record_all cs st) = buffer_full_events st /\
    checksum_errors (record_all cs st) = checksum_errors st.
Proof.
  induction cs as [|c cs IH]; intros st (H1 & H2 & H3 & H4).
  - cbn. rewrite !Z.add_0_r, H1, H2, H3, H4. repeat split.
  - unfold record_all in *. cbn [fold_left].
    destruct (IH (record c st)) as (I1 & I2 & I3 & I4 & I5 & I6).
    { unfold in_range.
      destruct c as [b|b|[]];
        cbn [record record_send record_receive record_error messages_sent
             messages_received bytes_sent bytes_received];
        rewrite ?u64_idem; repeat split; assumption. }
    rewrite I1, I2, I3, I4, I5, I6.
    unfold sends, receives, sent_bytes, received_bytes.
    destruct c as [b|b|[]];
      cbn [record record_send record_receive record_error messages_sent
           messages_received bytes_sent bytes_received buffer_full_events
           checksum_errors foldr];
      rewrite ?u64_add_l; repeat split; f_equal; lia.
Qed.

End Counters.

(** X27: the diagnostic counters count.  After any run of [record_send],
    [record_receive] and [record_error] calls on fresh statistics, the four
    totals are the number of sends, the number of receives and the bytes
    each kind reported, modulo [2 ^ 64]; calls of one kind never disturb
    the totals of the other, and no call touches [buffer_full_events] or
    [checksum_errors]. *)
Theorem global_stats_totals (cs : list GlobalStats.call) :
  GlobalStats.total_messages_sent
    (GlobalStats.record_all cs GlobalStats.initial)
    = u64 (GlobalStats.sends cs) /\
  GlobalStats.total_messages_received
    (GlobalStats.record_all cs GlobalStats.initial)
    = u64 (GlobalStats.receives cs) /\
  GlobalStats.total_bytes_sent
    (GlobalStats.record_all cs GlobalStats.initial)
    = u64 (GlobalStats.sent_bytes cs) /\
  GlobalStats.total_bytes_received
    (GlobalStats.record_all cs GlobalStats.initial)
    = u64 (GlobalStats.received_bytes cs) /\
  GlobalStats.buffer_full_events
    (GlobalStats.record_all cs GlobalStats.initial) = 0 /\
  GlobalStats.checksum_errors
    (GlobalStats.record_all cs GlobalStats.initial) = 0.
Proof.
  destruct (record_all_totals cs GlobalStats.initial)
    as (H1 & H2 & H3 & H4 & H5 & H6).
  { repeat split. }
  unfold GlobalStats.total_messages_sent,
    GlobalStats.total_messages_received, GlobalStats.total_bytes_sent,
    GlobalStats.total_bytes_received.
  rewrite H1, H2, H3, H4, H5, H6. repeat split.
Qed.

(* ===================================================================== *)
(** ** The split copy *)

(** X28: the split-copy contract of [write_bytes] and [read_bytes].  For
    any offset and any [n] up to the ring size, [write_bytes] puts source
    byte [j] at ring position [(offset + j) mod size_] for every [j < n],
    wrapping to position 0 at the physical end; it leaves every other
    position and the length of the ring alone; and [read_bytes] of [n]
    bytes from the same offset returns the [n] source bytes. *)
Theorem split_copy_round_trip (rb : RingBuffer.t) (buf src dst : list byte)
    n off :
  0 < RingBuffer.size_ rb < 2 ^ 64 ->
  is_power_of_two (RingBuffer.size_ rb) = true ->
  RingBuffer.mask_ rb = u64 (RingBuffer.size_ rb - 1) ->
  Z.of_nat (length buf) = RingBuffer.size_ rb ->
  0 <= n <= RingBuffer.size_ rb ->
  n <= Z.of_nat (length src) ->
  n <= Z.of_nat (length dst) ->
  0 <= off ->
  (forall j : nat,
     Z.of_nat j < n ->
     RingBuffer.write_bytes rb buf src n off
       !! Z.to_nat ((off + Z.of_nat j) mod RingBuffer.size_ rb) = src !! j) /\
  (forall i : nat,
     Z.of_nat i < RingBuffer.size_ rb ->
     n <= (Z.of_nat i - off) mod RingBuffer.size_ rb ->
     RingBuffer.write_bytes rb buf src n off !! i = buf !! i) /\
  length (RingBuffer.write_bytes rb buf src n off) = length buf /\
  take (Z.to_nat n)
    (RingBuffer.read_bytes rb (RingBuffer.write_bytes rb buf src n off) dst n
       off) = take (Z.to_nat n) src.
Proof.
  intros Hsize Hpow Hmask Hbuf Hn Hsrc Hdst Hoff.
  assert (Hput : forall j : nat,
             Z.of_nat j < n ->
             RingBuffer.write_bytes rb buf src n off
               !! Z.to_nat ((off + Z.of_nat j) mod RingBuffer.size_ rb)
             = src !! j).
  { intros j Hj.
    assert (Hi : 0 <= (off + Z.of_nat j) mod RingBuffer.size_ rb
                 < RingBuffer.size_ rb) by (apply Z.mod_pos_bound; lia).
    rewrite (write_bytes_lookup rb Hsize Hpow Hmask) by lia.
    rewrite Z2Nat.id by lia. rewrite Zminus_mod_idemp_l.
    replace (off + Z.of_nat j - off) with (Z.of_nat j) by lia.
    rewrite Z.mod_small by lia.
    destruct (Z.ltb_spec (Z.of_nat j) n); [|lia]. f_equal. lia. }
  split; [exact Hput|]. split.
  - intros i Hi Hfar.
    rewrite (write_bytes_lookup rb Hsize Hpow Hmask) by lia.
    destruct (Z.ltb_spec ((Z.of_nat i - off) mod RingBuffer.size_ rb) n);
      [lia|reflexivity].
  - split; [apply length_write_bytes|].
    apply list_eq. intros j.
    destruct (Nat.lt_ge_cases j (Z.to_nat n)) as [Hj|Hj].
    + rewrite !lookup_take_lt by assumption.
      rewrite (read_bytes_lookup rb Hsize Hpow Hmask);
        rewrite ?length_write_bytes; try lia.
      destruct (Z.ltb_spec (Z.of_nat j) n); [|lia].
      apply Hput. assumption.
    + rewrite !lookup_take_ge by assumption. reflexivity.
Qed.

Lemma split_copy_round_trip_witness :
  (forall j : nat,
     Z.of_nat j < 3 ->
     RingBuffer.write_bytes small_ring (replicate 4096 x00) [x41; x42; x43] 3
       4094
       !! Z.to_nat ((4094 + Z.of_nat j) mod RingBuffer.size_ small_ring)
     = [x41; x42; x43] !! j) /\
  (forall i : nat,
     Z.of_nat i < RingBuffer.size_ small_ring ->
     3 <= (Z.of_nat i - 4094) mod RingBuffer.size_ small_ring ->
     RingBuffer.write_bytes small_ring (replicate 4096 x00) [x41; x42; x43] 3
       4094 !! i = replicate 4096 x00 !! i) /\
  length
    (RingBuffer.write_bytes small_ring (replicate 4096 x00) [x41; x42; x43] 3
       4094) = length (replicate 4096 x00) /\
  take (Z.to_nat 3)
    (RingBuffer.read_bytes small_ring
       (RingBuffer.write_bytes small_ring (replicate 4096 x00)
          [x41; x42; x43] 3 4094) (replicate 4 x00) 3 4094)
  = take (Z.to_nat 3) [x41; x42; x43].
Proof.
  destruct small_ring_ok as (H1 & H2 & H3).
  apply (split_copy_round_trip small_ring (replicate 4096 x00)
           [x41; x42; x43] (replicate 4 x00) 3 4094 H1 H2 H3).
  - reflexivity.
  - vm_compute. split; discriminate.
  - vm_compute. discriminate.
  - vm_compute. discriminate.
  - lia.
Defined.
